(** * Cricket Match Insights Dashboard: filtering and aggregation

    A shallow embedding of [cricket_dashboard.py].  The script is a straight
    line of pandas calls over two tables; a table is modelled as the list of
    its rows in index order, a boolean mask is computed row by row, and
    [df[mask]] keeps the rows whose mask entry is [true], in order.

    Missing cells (pandas' NaN, NaT) are [None] in the columns where the
    script itself provides for them ([fillna], [na=False], the [dropna] of
    [value_counts], the NaT left by [to_datetime] on a blank cell).
    Timestamps are integers on a common time line, so that comparing two of
    them is comparing the integers. *)

From Stdlib Require Import List ZArith NArith Bool String Ascii Lia Arith.
From Stdlib Require Import Permutation Sorted.
Import ListNotations.

Local Open Scope string_scope.
Local Open Scope list_scope.
Local Open Scope Z_scope.

(** ** Data model *)

(** One row of [each_match_records_df]. *)
Record MatchRecord := mkMatch {
  match_number   : Z;
  season         : string;
  date           : option Z;
  venue          : option string;
  team1          : string;
  team2          : string;
  toss_won       : option string;
  toss_decision  : option string;
  winner         : option string;
  winner_runs    : option Z;
  winner_wickets : option Z;
  man_of_match   : option string
}.

(** One row of [each_ball_records_df], after the [over] column was turned
    into text and [over_number] was added. *)
Record BallEvent := mkBall {
  match_no    : Z;
  over        : string;
  over_number : Z;
  batter      : option string;
  bowler      : option string;
  score       : Z;
  outcome     : option string
}.

(** ** Series primitives used by the masks *)

(** [Series.isin(values)]: the cell is equal to one of [values]. *)
Definition isin {A : Type} (eqb : A -> A -> bool) (x : A) (values : list A)
  : bool :=
  existsb (eqb x) values.

(** [Series.between(left, right)], bounds included:
    [(s >= left) & (s <= right)]; every comparison with NaT is false. *)
Definition between (x : option Z) (left right : Z) : bool :=
  match x with
  | Some d => (left <=? d) && (d <=? right)
  | None => false
  end.

(** ** Filter engine (lines 62-67) *)

Section Filters.

Variable season_filter : list string.
Variable team_filter : list string.
Variables start_date end_date : Z.

Definition match_mask (m : MatchRecord) : bool :=
  isin String.eqb (season m) season_filter
  && between (date m) start_date end_date
  && (isin String.eqb (team1 m) team_filter
      || isin String.eqb (team2 m) team_filter).

Definition filtered_match_df (each_match_records_df : list MatchRecord)
  : list MatchRecord :=
  filter match_mask each_match_records_df.

Definition ball_mask (fm : list MatchRecord) (b : BallEvent) : bool :=
  isin Z.eqb (match_no b) (map match_number fm).

Definition filtered_ball_df (each_match_records_df : list MatchRecord)
    (each_ball_records_df : list BallEvent) : list BallEvent :=
  filter (ball_mask (filtered_match_df each_match_records_df))
         each_ball_records_df.

(** The two assignments of lines 62-67 as one function of the two input
    tables. *)
Definition filter_engine (ms : list MatchRecord) (bs : list BallEvent)
  : list MatchRecord * list BallEvent :=
  (filtered_match_df ms, filtered_ball_df ms bs).

End Filters.

(** ** Preprocessing (lines 20-23) *)

(** [fillna({'winner_runs': 0, 'winner_wickets': 0,
             'man_of_match': 'No Award'})] on one row. *)
Definition fill {A : Type} (default : A) (cell : option A) : option A :=
  match cell with
  | Some v => Some v
  | None => Some default
  end.

Definition fillna (m : MatchRecord) : MatchRecord :=
  {| match_number   := match_number m;
     season         := season m;
     date           := date m;
     venue          := venue m;
     team1          := team1 m;
     team2          := team2 m;
     toss_won       := toss_won m;
     toss_decision  := toss_decision m;
     winner         := winner m;
     winner_runs    := fill 0 (winner_runs m);
     winner_wickets := fill 0 (winner_wickets m);
     man_of_match   := fill "No Award" (man_of_match m) |}.

(** [Series.str.split(pat)] with a pattern of one character, which pandas
    takes literally: the pieces between the occurrences of [sep]. *)
Fixpoint str_split (sep : ascii) (s : string) : list string :=
  match s with
  | EmptyString => [EmptyString]
  | String c s' =>
      if Ascii.eqb c sep then EmptyString :: str_split sep s'
      else match str_split sep s' with
           | w :: ws => String c w :: ws
           | [] => [String c EmptyString]
           end
  end.

(** [.str[0]]: the first piece, missing when there is none. *)
Definition str_get0 (pieces : list string) : option string := hd_error pieces.

(** The conversion of a text cell by [astype(int)], which is Python's
    [int(text)] followed by the store into a 64-bit column: blanks around
    the literal are skipped, a sign may precede the digits, single
    underscores may separate digits.  [None] stands for the exception the
    conversion raises (text that is not an integer literal, or a value that
    does not fit 64 bits).  The model reads ASCII text. *)
Definition is_space (c : ascii) : bool :=
  let n := nat_of_ascii c in
  (((9 <=? n) && (n <=? 13)) || (n =? 32))%nat.

Definition digit_of (c : ascii) : option Z :=
  let n := Z.of_nat (nat_of_ascii c) in
  if (48 <=? n) && (n <=? 57) then Some (n - 48) else None.

Fixpoint lstrip (s : string) : string :=
  match s with
  | String c s' => if is_space c then lstrip s' else s
  | EmptyString => EmptyString
  end.

Fixpoint all_space (s : string) : bool :=
  match s with
  | String c s' => is_space c && all_space s'
  | EmptyString => true
  end.

(** The digit loop: [acc] is the value read so far, [prev_us] tells that
    the character just read was an underscore.  It stops at the first
    character that is neither a digit nor an underscore and returns the
    value with the unread text. *)
Fixpoint scan_digits (acc : Z) (prev_us : bool) (s : string)
  : option (Z * string) :=
  match s with
  | EmptyString => if prev_us then None else Some (acc, EmptyString)
  | String c s' =>
      match digit_of c with
      | Some d => scan_digits (10 * acc + d) false s'
      | None =>
          if Ascii.eqb c "_"
          then (if prev_us then None else scan_digits acc true s')
          else (if prev_us then None else Some (acc, s))
      end
  end.

Definition int64_min : Z := - 2 ^ 63.
Definition int64_max : Z := 2 ^ 63 - 1.

Definition py_int (text : string) : option Z :=
  let s := lstrip text in
  let '(neg, body) :=
    match s with
    | String "+" r => (false, r)
    | String "-" r => (true, r)
    | _ => (false, s)
    end in
  match body with
  | String c _ =>
      match digit_of c with
      | Some _ =>
          match scan_digits 0 false body with
          | Some (v, rest) =>
              let v' := if neg : bool then - v else v in
              if all_space rest && (int64_min <=? v') && (v' <=? int64_max)
              then Some v' else None
          | None => None
          end
      | None => None
      end
  | EmptyString => None
  end.

(** Line 23 on one cell of the [over] column (already text, line 22):
    [over.str.split('.').str[0].astype(int)].  A missing first piece would
    be NaN, which [astype(int)] refuses. *)
Definition over_number_of (over_text : string) : option Z :=
  match str_get0 (str_split "." over_text) with
  | Some w => py_int w
  | None => None
  end.

(** Line 23 on the whole column: the assignment raises as soon as one cell
    does. *)
Fixpoint over_number_column (overs : list string) : option (list Z) :=
  match overs with
  | [] => Some []
  | o :: rest =>
      match over_number_of o, over_number_column rest with
      | Some n, Some ns => Some (n :: ns)
      | _, _ => None
      end
  end.

(** ** Aggregates (lines 74-191) *)

(** [Series > 0]: false on a missing cell. *)
Definition gt0 (cell : option Z) : bool :=
  match cell with
  | Some v => 0 <? v
  | None => false
  end.

(** Lines 159-160. *)
Definition win_by_runs (fm : list MatchRecord) : list MatchRecord :=
  filter (fun m => gt0 (winner_runs m)) fm.

Definition win_by_wickets (fm : list MatchRecord) : list MatchRecord :=
  filter (fun m => gt0 (winner_wickets m)) fm.

(** [Series.str.contains(pat, case=False, na=...)] for a pattern without
    regular-expression operators: [pat] occurs somewhere in the cell,
    letters compared without regard to case; [na] is the answer for a
    missing cell. *)
Definition lower (c : ascii) : ascii :=
  let n := nat_of_ascii c in
  if ((65 <=? n) && (n <=? 90))%nat then ascii_of_nat (n + 32) else c.

Fixpoint ci_prefix (pat s : string) : bool :=
  match pat, s with
  | EmptyString, _ => true
  | String a pat', String b s' =>
      Ascii.eqb (lower a) (lower b) && ci_prefix pat' s'
  | String _ _, EmptyString => false
  end.

Fixpoint ci_search (pat s : string) : bool :=
  ci_prefix pat s
  || match s with
     | EmptyString => false
     | String _ s' => ci_search pat s'
     end.

Definition str_contains_nocase (pat : string) (na : bool)
    (cell : option string) : bool :=
  match cell with
  | Some s => ci_search pat s
  | None => na
  end.

(** Line 120. *)
Definition wickets_df (fb : list BallEvent) : list BallEvent :=
  filter (fun b => str_contains_nocase "out" false (outcome b)) fb.

(** Counting the occurrences of the keys of a column, as pandas' hash table
    does: one entry per distinct key, entries in the order in which the
    keys are first met. *)
Section Tally.

Context {K : Type}.
Variable K_eq_dec : forall x y : K, {x = y} + {x <> y}.

Fixpoint bump (k : K) (t : list (K * nat)) : list (K * nat) :=
  match t with
  | [] => [(k, 1%nat)]
  | (k', c) :: t' =>
      if K_eq_dec k k' then (k', S c) :: t' else (k', c) :: bump k t'
  end.

Definition tally (col : list K) : list (K * nat) :=
  fold_left (fun t k => bump k t) col [].

(** Position of the first occurrence of [k] in [col]; the length of
    [col] when there is none. *)
Fixpoint first_index (k : K) (col : list K) : nat :=
  match col with
  | [] => 0%nat
  | x :: col' =>
      if K_eq_dec x k then 0%nat else S (first_index k col')
  end.

End Tally.

(** Insertion sort along a boolean order, used where a table is put in
    order: it keeps rows that compare equal in their incoming order. *)
Section InsertionSort.

Context {A : Type}.
Variable le : A -> A -> bool.

Fixpoint insert_sorted (x : A) (l : list A) : list A :=
  match l with
  | [] => [x]
  | y :: l' => if le x y then x :: l else y :: insert_sorted x l'
  end.

Fixpoint isort (l : list A) : list A :=
  match l with
  | [] => []
  | x :: l' => insert_sorted x (isort l')
  end.

End InsertionSort.

(** [groupby(key).size()]: one row per distinct key, keys ascending, with
    the number of rows of the group. *)
Definition key_le (p q : Z * nat) : bool := fst p <=? fst q.

Definition groupby_size (keys : list Z) : list (Z * nat) :=
  isort key_le (tally Z.eq_dec keys).

(** Line 130: wickets per over. *)
Definition wickets_per_over (fb : list BallEvent) : list (Z * nat) :=
  groupby_size (map over_number (wickets_df fb)).

(** [dropna]: the missing cells of a column are left out. *)
Fixpoint dropna {A : Type} (col : list (option A)) : list A :=
  match col with
  | [] => []
  | Some x :: col' => x :: dropna col'
  | None :: col' => dropna col'
  end.

(** Descending order of the counts, the order of [value_counts]. *)
Definition count_ge (p q : string * nat) : bool := (snd q <=? snd p)%nat.

(** [sort_values(ascending=False)] as [value_counts] calls it, with the
    default sort kind: the rows come out by descending count, and the
    library does not say in which order rows of equal count come out.
    That order is the parameter [tie]: [tie p q] tells whether [p], which
    stands before [q] in the incoming table, stays before it when both
    have the same count. *)
Definition count_order (tie : string * nat -> string * nat -> bool)
    (p q : string * nat) : bool :=
  (snd q <? snd p)%nat || ((snd p =? snd q)%nat && tie p q).

Definition sort_values_by (tie : string * nat -> string * nat -> bool)
    (t : list (string * nat)) : list (string * nat) :=
  isort (count_order tie) t.

(** [Series.value_counts().head(10)] (lines 180 and 187).  [value_counts]
    drops the missing cells, counts each name and hands the counts to
    [sort_values(ascending=False)]; the sorting routine is the library's and
    is a parameter here. *)
Section TopPlayers.

Variable sort_values : list (string * nat) -> list (string * nat).

Definition value_counts (col : list (option string)) : list (string * nat) :=
  sort_values (tally string_dec (dropna col)).

Definition head {A : Type} (n : nat) (l : list A) : list A := firstn n l.

Definition top_players (col : list (option string)) : list (string * nat) :=
  head 10 (value_counts col).

Definition top_batters (fb : list BallEvent) : list (string * nat) :=
  top_players (map batter fb).

Definition top_bowlers (fb : list BallEvent) : list (string * nat) :=
  top_players (map bowler fb).

End TopPlayers.

(** ** Sidebar options and defaults (lines 29-49) *)

(** [Series.unique()]: the distinct values of a column, each at the place
    where it is first met. *)
Definition unique_add (x : string) (seen : list string) : list string :=
  if in_dec string_dec x seen then seen else seen ++ [x].

Definition unique (col : list string) : list string :=
  fold_left (fun seen x => unique_add x seen) col [].

(** Lines 31-32: the seasons offered, which are also the default
    selection. *)
Definition season_options (ms : list MatchRecord) : list string :=
  unique (map season ms).

(** Line 36: [sorted(set(team1).union(set(team2)))].  The set holds each
    name once; whatever order it hands them out in, [sorted] puts them in
    the order of the strings. *)
Definition teams (ms : list MatchRecord) : list string :=
  isort String.leb (nodup string_dec (map team1 ms ++ map team2 ms)).

(** [Series.min()] and [Series.max()] of a column of dates: missing cells
    are skipped, and the result is missing when no cell is left. *)
Definition series_min (col : list (option Z)) : option Z :=
  match dropna col with
  | [] => None
  | d :: ds => Some (fold_left Z.min ds d)
  end.

Definition series_max (col : list (option Z)) : option Z :=
  match dropna col with
  | [] => None
  | d :: ds => Some (fold_left Z.max ds d)
  end.

(** Line 46: the default of the date picker, the first and the last day
    of the table.  The dates were read from day-month-year text, so they
    are whole days: [.date()] and, at lines 52-53, [pd.Timestamp] give
    them back unchanged. *)
Definition default_date_filter (ms : list MatchRecord) : option (Z * Z) :=
  match series_min (map date ms), series_max (map date ms) with
  | Some lo, Some hi => Some (lo, hi)
  | _, _ => None
  end.

(** ** Totals (lines 70-71) *)

Definition total_matches (fm : list MatchRecord) : nat := List.length fm.

Definition total_balls (fb : list BallEvent) : nat := List.length fb.

(** ** Runs per over (line 109) *)

(** A sum kept in a 64-bit column wraps around. *)
Definition wrap64 (z : Z) : Z := (z + 2 ^ 63) mod 2 ^ 64 - 2 ^ 63.

(** [groupby(key)[value].sum()]: the rows are poured into one running sum
    per key, and the keys come out ascending. *)
Fixpoint add_to (k v : Z) (t : list (Z * Z)) : list (Z * Z) :=
  match t with
  | [] => [(k, wrap64 v)]
  | (k', s) :: t' =>
      if Z.eq_dec k k' then (k', wrap64 (s + v)) :: t'
      else (k', s) :: add_to k v t'
  end.

Definition sum_key_le (p q : Z * Z) : bool := fst p <=? fst q.

Definition groupby_sum (rows : list (Z * Z)) : list (Z * Z) :=
  isort sum_key_le (fold_left (fun t r => add_to (fst r) (snd r) t) rows []).

Definition overs_summary (fb : list BallEvent) : list (Z * Z) :=
  groupby_sum (map (fun b => (over_number b, score b)) fb).

(** ** Counts of a text column (lines 88, 94, 133, 134, 164) *)

Section ColumnCounts.

Variable sort_values : list (string * nat) -> list (string * nat).

(** [df[column].value_counts()] for a column of the match table; the
    script fills none of these columns, so a cell may be blank, and
    [value_counts] leaves the blank cells out. *)
Definition column_counts (column : MatchRecord -> option string)
    (fm : list MatchRecord) : list (string * nat) :=
  value_counts sort_values (map column fm).

Definition venue_counts := column_counts venue.
Definition toss_outcomes := column_counts toss_won.
Definition toss_decisions := column_counts toss_decision.
Definition winner_counts := column_counts winner.

(** [.index.tolist()]: the order handed to the chart. *)
Definition index_tolist (counts : list (string * nat)) : list string :=
  map fst counts.

End ColumnCounts.

(** ** Export link (lines 196-198) *)

(** [base64.b64encode]: three bytes become four characters of the
    alphabet; a last group of one or two bytes is padded with [=]. *)
Definition b64_alphabet : string :=
  "ABCDEFGHIJKLMNOPQRSTUVWXYZabcdefghijklmnopqrstuvwxyz0123456789+/".

Definition b64_char (n : N) : ascii :=
  match String.get (N.to_nat n) b64_alphabet with
  | Some c => c
  | None => "="%char
  end.

Fixpoint b64encode (bytes : string) : string :=
  match bytes with
  | EmptyString => EmptyString
  | String a EmptyString =>
      let n := (N_of_ascii a * 65536)%N in
      String (b64_char (N.shiftr n 18))
        (String (b64_char (N.land (N.shiftr n 12) 63)) "==")
  | String a (String b EmptyString) =>
      let n := (N_of_ascii a * 65536 + N_of_ascii b * 256)%N in
      String (b64_char (N.shiftr n 18))
        (String (b64_char (N.land (N.shiftr n 12) 63))
           (String (b64_char (N.land (N.shiftr n 6) 63)) "="))
  | String a (String b (String c rest)) =>
      let n := (N_of_ascii a * 65536 + N_of_ascii b * 256 + N_of_ascii c)%N in
      String (b64_char (N.shiftr n 18))
        (String (b64_char (N.land (N.shiftr n 12) 63))
           (String (b64_char (N.land (N.shiftr n 6) 63))
              (String (b64_char (N.land n 63)) (b64encode rest))))
  end.

(** Line 198: the anchor, around the encoded bytes of the CSV text. *)
Definition dquote : ascii := "034"%char.

Definition export_href (csv_bytes : string) : string :=
  ("<a href=" ++ String dquote "data:file/csv;base64,"
   ++ b64encode csv_bytes
   ++ String dquote " download=" ++ String dquote "cricket_data.csv"
   ++ String dquote ">Download CSV File</a>")%string.

(** ** Vocabulary of the statements *)

(** [c] occurs in [s]. *)
Fixpoint mem_char (c : ascii) (s : string) : bool :=
  match s with
  | EmptyString => false
  | String c' s' => Ascii.eqb c' c || mem_char c s'
  end.

Fixpoint string_lower (s : string) : string :=
  match s with
  | EmptyString => EmptyString
  | String c s' => String (lower c) (string_lower s')
  end.

(** [s] contains [pat] as a substring, ignoring case: some stretch of [s]
    has the letters of [pat] once both are put in lower case. *)
Definition contains_ignoring_case (pat s : string) : Prop :=
  exists pre mid post,
    s = (pre ++ mid ++ post)%string
    /\ string_lower mid = string_lower pat.

(** The text of a number written with the decimal digits [ds], and its
    value. *)
Definition digit_char (d : nat) : ascii := ascii_of_nat (48 + d).

Fixpoint decimal (ds : list nat) : string :=
  match ds with
  | [] => EmptyString
  | d :: ds' => String (digit_char d) (decimal ds')
  end.

Definition decimal_value (ds : list nat) : Z :=
  fold_left (fun acc d => 10 * acc + Z.of_nat d) ds 0.

(** Rows of a table of counts can be told apart. *)
Definition count_row_dec (x y : string * nat) : {x = y} + {x <> y}.
Proof.
  decide equality; [apply Nat.eq_dec | apply string_dec].
Defined.

(** The tie order that reproduces a given outcome [s] of the sort: a row
    stays before another when it stands no later in [s]. *)
Definition tie_as_in (s : list (string * nat)) (p q : string * nat) : bool :=
  (first_index count_row_dec p s <=? first_index count_row_dec q s)%nat.

(** A cell that is not blank, and a cell that holds the text [x]. *)
Definition not_blank (cell : option string) : bool :=
  match cell with
  | Some _ => true
  | None => false
  end.

Definition cell_is (x : string) (cell : option string) : bool :=
  match cell with
  | Some y => String.eqb y x
  | None => false
  end.

(** [x] stands before [y] in the list. *)
Inductive precedes {A : Type} (x y : A) : list A -> Prop :=
| precedes_here : forall l, In y l -> precedes x y (x :: l)
| precedes_later : forall z l, precedes x y l -> precedes x y (z :: l).

(** The count recorded for [k] in a table of counts, 0 when [k] has no
    entry. *)
Fixpoint get_count {K : Type} (K_eq_dec : forall x y : K, {x = y} + {x <> y})
    (k : K) (t : list (K * nat)) : nat :=
  match t with
  | [] => 0%nat
  | (k', c) :: t' => if K_eq_dec k k' then c else get_count K_eq_dec k t'
  end.




(** The total of a list of integers. *)
Definition sumZ (l : list Z) : Z := fold_right Z.add 0 l.

(** The running sums of [add_to] without the 64-bit wrap-around, and the
    sum recorded for a key (0 when the key has no entry). *)
Fixpoint add_exact (k v : Z) (t : list (Z * Z)) : list (Z * Z) :=
  match t with
  | [] => [(k, v)]
  | (k', s) :: t' =>
      if Z.eq_dec k k' then (k', s + v) :: t' else (k', s) :: add_exact k v t'
  end.

Definition sums_exact (rows : list (Z * Z)) : list (Z * Z) :=
  fold_left (fun t r => add_exact (fst r) (snd r) t) rows [].

Fixpoint get_sum (k : Z) (t : list (Z * Z)) : Z :=
  match t with
  | [] => 0
  | (k', s) :: t' => if Z.eq_dec k k' then s else get_sum k t'
  end.

(** The sum of the values of the rows whose key is [k], and the sum of
    the sizes of all values. *)
Definition key_sum (k : Z) (rows : list (Z * Z)) : Z :=
  sumZ (map snd (filter (fun r => fst r =? k) rows)).

Definition abs_total (rows : list (Z * Z)) : Z :=
  sumZ (map (fun r => Z.abs (snd r)) rows).

(** The number of occurrences of a character in a text. *)
Fixpoint count_char (c : ascii) (s : string) : nat :=
  match s with
  | EmptyString => 0%nat
  | String c' s' =>
      ((if Ascii.eqb c' c then 1 else 0) + count_char c s')%nat
  end.

(** [sep.join(pieces)]. *)
Fixpoint str_join (sep : ascii) (pieces : list string) : string :=
  match pieces with
  | [] => EmptyString
  | [w] => w
  | w :: rest => (w ++ String sep (str_join sep rest))%string
  end.

(** The characters base64 text is made of: letters, digits, [+], [/] and
    the padding [=]. *)
Definition is_b64_symbol (c : ascii) : bool :=
  let n := nat_of_ascii c in
  (((65 <=? n) && (n <=? 90)) || ((97 <=? n) && (n <=? 122))
   || ((48 <=? n) && (n <=? 57)) || (n =? 43) || (n =? 47) || (n =? 61))%nat.

Fixpoint all_b64_symbols (s : string) : bool :=
  match s with
  | EmptyString => true
  | String c s' => is_b64_symbol c && all_b64_symbols s'
  end.

(** Reading base64 text back: the place of a character in the alphabet,
    and the bytes of a text of groups of four characters. *)
Definition b64_index (c : ascii) : option N :=
  let n := N_of_ascii c in
  if ((65 <=? n) && (n <=? 90))%N then Some (n - 65)%N
  else if ((97 <=? n) && (n <=? 122))%N then Some (n - 71)%N
  else if ((48 <=? n) && (n <=? 57))%N then Some (n + 4)%N
  else if (n =? 43)%N then Some 62%N
  else if (n =? 47)%N then Some 63%N
  else None.

Definition b64_group (p q r t : N) : N :=
  (p * 262144 + q * 4096 + r * 64 + t)%N.

Definition byte_of (n : N) : ascii := ascii_of_N (n mod 256).

Fixpoint b64decode (s : string) : option string :=
  match s with
  | EmptyString => Some EmptyString
  | String p (String q (String r (String t rest))) =>
      match b64_index p, b64_index q with
      | Some ip, Some iq =>
          match b64_index r, b64_index t, rest with
          | Some ir, Some it, _ =>
              let n := b64_group ip iq ir it in
              match b64decode rest with
              | Some bytes =>
                  Some (String (byte_of (n / 65536))
                          (String (byte_of (n / 256))
                             (String (byte_of n) bytes)))
              | None => None
              end
          | Some ir, None, EmptyString =>
              if Ascii.eqb t "=" then
                let n := b64_group ip iq ir 0 in
                Some (String (byte_of (n / 65536))
                        (String (byte_of (n / 256)) EmptyString))
              else None
          | None, None, EmptyString =>
              if Ascii.eqb r "=" && Ascii.eqb t "=" then
                let n := b64_group ip iq 0 0 in
                Some (String (byte_of (n / 65536)) EmptyString)
              else None
          | _, _, _ => None
          end
      | _, _ => None
      end
  | _ => None
  end.

(** ** Sample rows *)

(** One match of season 2020 played on 2020-03-01 (day 18322 of the epoch)
    between A and B, as read from the file: no margin in wickets, no man of
    the match. *)
Definition match_2020 : MatchRecord :=
  mkMatch 1 "2020" (Some 18322) (Some "Wankhede") "A" "B" (Some "A")
          (Some "bat") (Some "A")
          (Some 12) None None.

(** A match without a margin in runs. *)
Definition match_no_margin : MatchRecord :=
  mkMatch 2 "2020" (Some 18323) (Some "Eden Gardens") "A" "C" (Some "C")
          (Some "field") (Some "C")
          None (Some 5) (Some "P. Player").

(** A match without a result: no winner, no margin. *)
Definition match_no_result : MatchRecord :=
  mkMatch 3 "2020" (Some 18324) (Some "Chepauk") "B" "C" (Some "B")
          (Some "bat") None None None None.

Definition ball_caught : BallEvent :=
  mkBall 1 "14.3" 14 (Some "R. Batter") (Some "S. Bowler") 0
         (Some "caught out").

Definition ball_no_run : BallEvent :=
  mkBall 1 "14.4" 14 (Some "T. Batter") (Some "S. Bowler") 0
         (Some "no run").

Definition ball_no_outcome : BallEvent :=
  mkBall 1 "14.5" 14 (Some "T. Batter") (Some "S. Bowler") 1 None.

Definition sample_balls : list BallEvent :=
  [ ball_no_run; ball_caught; ball_no_outcome;
    mkBall 1 "15.1" 15 (Some "R. Batter") (Some "U. Bowler") 4
           (Some "four");
    mkBall 1 "15.2" 15 None (Some "U. Bowler") 0 (Some "Run Out") ].

(** ** Facts about the primitives *)

Lemma isin_string_In (x : string) (values : list string) :
  isin String.eqb x values = true <-> In x values.
Proof.
  unfold isin. rewrite existsb_exists. split.
  - intros [y [Hy He]]. apply String.eqb_eq in He. now subst.
  - intros H. exists x. split; [assumption | apply String.eqb_refl].
Qed.

Lemma isin_Z_In (x : Z) (values : list Z) :
  isin Z.eqb x values = true <-> In x values.
Proof.
  unfold isin. rewrite existsb_exists. split.
  - intros [y [Hy He]]. apply Z.eqb_eq in He. now subst.
  - intros H. exists x. split; [assumption | apply Z.eqb_refl].
Qed.

Lemma between_spec (x : option Z) (l r : Z) :
  between x l r = true <-> exists d, x = Some d /\ l <= d <= r.
Proof.
  destruct x as [d|]; simpl.
  - rewrite andb_true_iff, !Z.leb_le. split.
    + intros H. exists d. split; [reflexivity | lia].
    + intros [d' [E H]]. injection E as ->. lia.
  - split; [discriminate | intros [d [E _]]; discriminate].
Qed.

Lemma match_mask_spec sf tf s e (m : MatchRecord) :
  match_mask sf tf s e m = true <->
  In (season m) sf /\
  (exists d, date m = Some d /\ s <= d <= e) /\
  (In (team1 m) tf \/ In (team2 m) tf).
Proof.
  unfold match_mask.
  rewrite !andb_true_iff, orb_true_iff, !isin_string_In, between_spec.
  tauto.
Qed.

Lemma filter_idem {A : Type} (f : A -> bool) (l : list A) :
  filter f (filter f l) = filter f l.
Proof.
  induction l as [|x l IH]; simpl; [reflexivity|].
  destruct (f x) eqn:E; simpl; [rewrite E, IH|]; auto.
Qed.

(** ** Filter engine: claims *)

(** C1. A match record of the table is retained (its mask entry is true,
    equivalently it is a row of the filtered table) if and only if its
    season is among the selected seasons, its date lies between the start
    and the end date, both included, and its team1 or its team2 is among
    the selected teams. *)
Theorem filter_retains_iff :
  forall (sf tf : list string) (s e : Z) (df : list MatchRecord)
         (m : MatchRecord),
    (match_mask sf tf s e m = true <->
       In (season m) sf /\
       (exists d, date m = Some d /\ s <= d <= e) /\
       (In (team1 m) tf \/ In (team2 m) tf))
    /\
    (In m (filtered_match_df sf tf s e df) <->
       In m df /\
       In (season m) sf /\
       (exists d, date m = Some d /\ s <= d <= e) /\
       (In (team1 m) tf \/ In (team2 m) tf)).
Proof.
  intros. split.
  - apply match_mask_spec.
  - unfold filtered_match_df. rewrite filter_In, match_mask_spec. tauto.
Qed.


(** The spec's example: [match_2020], seasons {2020}, teams {A}, dates
    2020-01-01 to 2020-12-31 (days 18262 to 18627): it is retained; with
    teams {C} nothing is. *)
Example example_match_retained :
  filtered_match_df ["2020"] ["A"] 18262 18627 [fillna match_2020]
    = [fillna match_2020]
  /\ filtered_match_df ["2020"] ["C"] 18262 18627 [fillna match_2020] = [].
Proof. split; reflexivity. Qed.

Lemma ball_mask_spec (fm : list MatchRecord) (b : BallEvent) :
  ball_mask fm b = true <->
  exists m, In m fm /\ match_number m = match_no b.
Proof.
  unfold ball_mask. rewrite isin_Z_In, in_map_iff. split.
  - intros [m [E H]]. now exists m.
  - intros [m [H E]]. now exists m.
Qed.

(** C2. A ball event of the table is retained if and only if its match
    identifier is the match number of some retained match record; hence
    the match identifiers of the retained ball events are all among the
    match numbers of the retained match records. *)
Theorem ball_retained_iff :
  forall (sf tf : list string) (s e : Z) (ms : list MatchRecord)
         (bs : list BallEvent),
    (forall b,
        In b (filtered_ball_df sf tf s e ms bs) <->
        In b bs /\
        exists m, In m (filtered_match_df sf tf s e ms) /\
                  match_number m = match_no b)
    /\
    incl (map match_no (filtered_ball_df sf tf s e ms bs))
         (map match_number (filtered_match_df sf tf s e ms)).
Proof.
  intros. split.
  - intros b. unfold filtered_ball_df.
    now rewrite filter_In, ball_mask_spec.
  - intros n Hn. apply in_map_iff in Hn. destruct Hn as [b [<- Hb]].
    unfold filtered_ball_df in Hb. apply filter_In in Hb.
    destruct Hb as [_ Hb]. unfold ball_mask in Hb.
    now apply isin_Z_In in Hb.
Qed.

(** C7. Filtering is idempotent: the filter engine applied to the pair of
    tables it produced, with the same seasons, teams and dates, returns
    that same pair. *)
Theorem filter_engine_idempotent :
  forall (sf tf : list string) (s e : Z) (ms : list MatchRecord)
         (bs : list BallEvent),
    filter_engine sf tf s e
      (fst (filter_engine sf tf s e ms bs))
      (snd (filter_engine sf tf s e ms bs))
    = filter_engine sf tf s e ms bs.
Proof.
  intros. unfold filter_engine, filtered_ball_df, filtered_match_df.
  simpl. now rewrite !filter_idem.
Qed.

Lemma filter_all_false {A : Type} (f : A -> bool) (l : list A) :
  (forall x, In x l -> f x = false) -> filter f l = [].
Proof.
  induction l as [|x l IH]; intros H; simpl; [reflexivity|].
  rewrite (H x (or_introl eq_refl)). apply IH.
  intros y Hy. apply H. now right.
Qed.

(** C8. With no season selected, or with no team selected, the filter
    engine retains no match record; it is a total function, so there is
    no error. *)
Theorem empty_selection_retains_nothing :
  forall (sf tf : list string) (s e : Z) (ms : list MatchRecord),
    sf = [] \/ tf = [] ->
    filtered_match_df sf tf s e ms = [].
Proof.
  intros sf tf s e ms H. apply filter_all_false. intros m _.
  unfold match_mask. destruct H as [-> | ->]; simpl.
  - reflexivity.
  - now rewrite andb_false_r.
Qed.

Lemma empty_selection_retains_nothing_witness :
  filtered_match_df [] ["A"] 18262 18627 [match_2020] = []
  /\ filtered_match_df ["2020"] [] 18262 18627 [match_2020] = [].
Proof.
  split.
  - apply (empty_selection_retains_nothing [] ["A"] 18262 18627 [match_2020]).
    left. reflexivity.
  - apply (empty_selection_retains_nothing ["2020"] [] 18262 18627
             [match_2020]).
    right. reflexivity.
Defined.

(** C9. When the start of the date range is after its end, the filter
    engine retains no match record; it is a total function, so there is
    no error. *)
Theorem reversed_range_retains_nothing :
  forall (sf tf : list string) (s e : Z) (ms : list MatchRecord),
    e < s ->
    filtered_match_df sf tf s e ms = [].
Proof.
  intros sf tf s e ms H. apply filter_all_false. intros m _.
  unfold match_mask.
  assert (Hb : between (date m) s e = false).
  { destruct (between (date m) s e) eqn:E; [|reflexivity].
    apply between_spec in E. destruct E as [d [_ Hd]]. lia. }
  rewrite Hb. now rewrite andb_false_r.
Qed.

Lemma reversed_range_retains_nothing_witness :
  18262 < 18627 /\
  filtered_match_df ["2020"] ["A"] 18627 18262 [match_2020] = [].
Proof.
  split; [lia|].
  apply (reversed_range_retains_nothing ["2020"] ["A"] 18627 18262
           [match_2020]).
  lia.
Defined.

(** ** Preprocessing and match outcomes *)

Lemma win_by_runs_In (fm : list MatchRecord) (m : MatchRecord) :
  In m (win_by_runs fm) <->
  In m fm /\ exists r, winner_runs m = Some r /\ 0 < r.
Proof.
  unfold win_by_runs. rewrite filter_In. unfold gt0.
  destruct (winner_runs m) as [r|].
  - rewrite Z.ltb_lt. split.
    + intros [H1 H2]. split; [assumption|]. now exists r.
    + intros [H1 [r' [E H2]]]. injection E as ->. now split.
  - split.
    + intros [_ H]. discriminate.
    + intros [_ [r [E _]]]. discriminate.
Qed.

(** C6. A missing winner-by-runs margin becomes 0 in preprocessing, which
    is a total function (no error); the Win Margin by Runs table keeps
    exactly the rows whose margin is greater than 0, so a row whose margin
    is 0, and in particular a row whose margin was missing, is not in
    it. *)
Theorem missing_margin_is_zero_and_excluded :
  forall (sf tf : list string) (s e : Z) (ms : list MatchRecord)
         (m : MatchRecord),
    (winner_runs m = None -> winner_runs (fillna m) = Some 0)
    /\ (forall r, winner_runs m = Some r -> winner_runs (fillna m) = Some r)
    /\ (forall fm, In m (win_by_runs fm) <->
                   In m fm /\ exists r, winner_runs m = Some r /\ 0 < r)
    /\ (forall fm, winner_runs m = Some 0 -> ~ In m (win_by_runs fm))
    /\ (winner_runs m = None ->
        ~ In (fillna m)
             (win_by_runs (filtered_match_df sf tf s e (map fillna ms)))).
Proof.
  intros. split; [|split; [|split; [|split]]].
  - intros H. simpl. now rewrite H.
  - intros r H. simpl. now rewrite H.
  - intros fm. apply win_by_runs_In.
  - intros fm H Hin. apply win_by_runs_In in Hin.
    destruct Hin as [_ [r [E Hr]]]. rewrite H in E. injection E as <-. lia.
  - intros H Hin. apply win_by_runs_In in Hin.
    destruct Hin as [_ [r [E Hr]]]. simpl in E. rewrite H in E.
    simpl in E. injection E as <-. lia.
Qed.

Example example_missing_margin :
  winner_runs (fillna match_no_margin) = Some 0
  /\ win_by_runs
       (filtered_match_df ["2020"] ["A"] 18262 18627
          (map fillna [match_2020; match_no_margin]))
     = [fillna match_2020].
Proof. split; reflexivity. Qed.

(** ** Wicket distribution *)

Lemma string_lower_nil (s : string) :
  string_lower s = EmptyString -> s = EmptyString.
Proof. destruct s; simpl; [reflexivity | discriminate]. Qed.

Lemma ci_prefix_spec (pat s : string) :
  ci_prefix pat s = true <->
  exists mid post,
    s = (mid ++ post)%string /\ string_lower mid = string_lower pat.
Proof.
  revert s. induction pat as [|a pat IH]; intros s; simpl.
  - split; [|reflexivity]. intros _.
    exists EmptyString, s. split; reflexivity.
  - destruct s as [|b s].
    + split; [discriminate|].
      intros [mid [post [E L]]]. destruct mid; simpl in *; discriminate.
    + rewrite andb_true_iff, Ascii.eqb_eq, IH. split.
      * intros [Hc [mid [post [E L]]]].
        exists (String b mid), post. simpl. subst s.
        split; [reflexivity|]. now rewrite Hc, L.
      * intros [mid [post [E L]]].
        destruct mid as [|c mid]; simpl in *; [discriminate|].
        injection E as -> ->. injection L as Hc L.
        split; [now symmetry|]. now exists mid, post.
Qed.

Lemma ci_search_spec (pat s : string) :
  ci_search pat s = true <-> contains_ignoring_case pat s.
Proof.
  unfold contains_ignoring_case.
  induction s as [|c s IH]; simpl; rewrite orb_true_iff.
  - split.
    + intros [H|H]; [|discriminate].
      apply ci_prefix_spec in H. destruct H as [mid [post [E L]]].
      exists EmptyString, mid, post. now split.
    + intros [pre [mid [post [E L]]]]. left. apply ci_prefix_spec.
      destruct pre; simpl in E; [|discriminate]. now exists mid, post.
  - rewrite IH. split.
    + intros [H|[pre [mid [post [E L]]]]].
      * apply ci_prefix_spec in H. destruct H as [mid [post [E L]]].
        exists EmptyString, mid, post. now split.
      * exists (String c pre), mid, post. simpl. now rewrite E.
    + intros [pre [mid [post [E L]]]].
      destruct pre as [|c' pre]; simpl in E.
      * left. apply ci_prefix_spec. now exists mid, post.
      * right. injection E as -> ->. now exists pre, mid, post.
Qed.

Lemma wickets_df_In (fb : list BallEvent) (b : BallEvent) :
  In b (wickets_df fb) <->
  In b fb /\ exists s, outcome b = Some s /\ contains_ignoring_case "out" s.
Proof.
  unfold wickets_df. rewrite filter_In. unfold str_contains_nocase.
  destruct (outcome b) as [s|].
  - rewrite ci_search_spec. split.
    + intros [H1 H2]. split; [assumption|]. now exists s.
    + intros [H1 [s' [E H2]]]. injection E as ->. now split.
  - split.
    + intros [_ H]. discriminate.
    + intros [_ [s [E _]]]. discriminate.
Qed.

(** C10. A ball event without an outcome is never a wicket: its mask
    entry is false (no error), it is not a row of the wickets table, and
    the wickets table and the wickets per over are what they are without
    that row. *)
Theorem missing_outcome_is_no_wicket :
  forall (b : BallEvent) (fb1 fb2 : list BallEvent),
    outcome b = None ->
    str_contains_nocase "out" false (outcome b) = false
    /\ ~ In b (wickets_df (fb1 ++ b :: fb2))
    /\ wickets_df (fb1 ++ b :: fb2) = wickets_df (fb1 ++ fb2)
    /\ wickets_per_over (fb1 ++ b :: fb2) = wickets_per_over (fb1 ++ fb2).
Proof.
  intros b fb1 fb2 H.
  assert (Hm : str_contains_nocase "out" false (outcome b) = false)
    by now rewrite H.
  assert (Hw : wickets_df (fb1 ++ b :: fb2) = wickets_df (fb1 ++ fb2)).
  { unfold wickets_df. rewrite !filter_app. simpl. now rewrite Hm. }
  split; [|split; [|split]].
  - exact Hm.
  - intros Hin. apply wickets_df_In in Hin.
    destruct Hin as [_ [s [E _]]]. rewrite H in E. discriminate.
  - exact Hw.
  - unfold wickets_per_over. now rewrite Hw.
Qed.

Lemma missing_outcome_is_no_wicket_witness :
  outcome ball_no_outcome = None
  /\ ~ In ball_no_outcome
         (wickets_df ([ball_caught] ++ ball_no_outcome :: [ball_no_run]))
  /\ wickets_per_over ([ball_caught] ++ ball_no_outcome :: [ball_no_run])
     = wickets_per_over ([ball_caught] ++ [ball_no_run]).
Proof.
  split; [reflexivity|].
  split;
    apply (missing_outcome_is_no_wicket ball_no_outcome [ball_caught]
             [ball_no_run]);
    reflexivity.
Defined.

(** ** Counting table *)

Section TallyFacts.

Context {K : Type}.
Variable K_eq_dec : forall x y : K, {x = y} + {x <> y}.

Lemma tally_snoc (col : list K) (k : K) :
  tally K_eq_dec (col ++ [k]) = bump K_eq_dec k (tally K_eq_dec col).
Proof. unfold tally. now rewrite fold_left_app. Qed.

Lemma get_count_bump (k k' : K) (t : list (K * nat)) :
  get_count K_eq_dec k' (bump K_eq_dec k t)
  = if K_eq_dec k' k then S (get_count K_eq_dec k' t)
    else get_count K_eq_dec k' t.
Proof.
  induction t as [|[k0 c] t IH]; simpl.
  - destruct (K_eq_dec k' k); reflexivity.
  - destruct (K_eq_dec k k0) as [E|N]; simpl.
    + subst k0. destruct (K_eq_dec k' k); reflexivity.
    + destruct (K_eq_dec k' k0) as [E0|N0].
      * subst k0. destruct (K_eq_dec k' k); [congruence | reflexivity].
      * exact IH.
Qed.

Lemma keys_bump (k : K) (t : list (K * nat)) :
  map fst (bump K_eq_dec k t)
  = if in_dec K_eq_dec k (map fst t) then map fst t else map fst t ++ [k].
Proof.
  induction t as [|[k0 c] t IH]; simpl; [reflexivity|].
  destruct (K_eq_dec k k0) as [E|N]; simpl.
  - subst k0. destruct (K_eq_dec k k); [reflexivity | contradiction].
  - rewrite IH. destruct (K_eq_dec k0 k); [congruence|].
    destruct (in_dec K_eq_dec k (map fst t)); reflexivity.
Qed.

Lemma get_count_tally (col : list K) (k : K) :
  get_count K_eq_dec k (tally K_eq_dec col) = count_occ K_eq_dec col k.
Proof.
  induction col as [|x col IH] using rev_ind; [reflexivity|].
  rewrite tally_snoc, get_count_bump, count_occ_app, IH. simpl.
  destruct (K_eq_dec k x), (K_eq_dec x k); try congruence; lia.
Qed.

Lemma keys_tally_In (col : list K) (k : K) :
  In k (map fst (tally K_eq_dec col)) <-> In k col.
Proof.
  induction col as [|x col IH] using rev_ind; [reflexivity|].
  rewrite tally_snoc, keys_bump, in_app_iff. simpl.
  destruct (in_dec K_eq_dec x (map fst (tally K_eq_dec col))) as [Hx|Hx].
  - rewrite IH. split; [tauto|].
    intros [H|[H|[]]]; [assumption|]. subst. now apply IH.
  - rewrite in_app_iff, IH. simpl. tauto.
Qed.

Lemma keys_tally_NoDup (col : list K) :
  NoDup (map fst (tally K_eq_dec col)).
Proof.
  induction col as [|x col IH] using rev_ind; [constructor|].
  rewrite tally_snoc, keys_bump.
  destruct (in_dec K_eq_dec x (map fst (tally K_eq_dec col))) as [Hx|Hx];
    [assumption|].
  apply NoDup_app; [assumption | constructor; [intros [] | constructor] |].
  intros a Ha [E|[]]. now subst.
Qed.

Lemma In_get_count (t : list (K * nat)) (k : K) (c : nat) :
  NoDup (map fst t) ->
  (In (k, c) t <-> In k (map fst t) /\ c = get_count K_eq_dec k t).
Proof.
  induction t as [|[k0 c0] t IH]; simpl; intros ND.
  - tauto.
  - inversion ND as [|? ? Hn ND']; subst.
    specialize (IH ND').
    destruct (K_eq_dec k k0) as [E|N].
    + subst k0. split.
      * intros [H|H]; [injection H as ->; auto|].
        exfalso. apply Hn. now apply (in_map fst) in H.
      * intros [_ ->]. now left.
    + rewrite IH. split.
      * intros [H|H]; [congruence | tauto].
      * intros [[H|H] Hc]; [congruence | tauto].
Qed.

Lemma tally_In (col : list K) (k : K) (c : nat) :
  In (k, c) (tally K_eq_dec col) <->
  In k col /\ c = count_occ K_eq_dec col k.
Proof.
  rewrite In_get_count by apply keys_tally_NoDup.
  now rewrite keys_tally_In, get_count_tally.
Qed.

Lemma first_index_lt (col : list K) (k : K) :
  In k col -> (first_index K_eq_dec k col < List.length col)%nat.
Proof.
  induction col as [|x col IH]; simpl; [tauto|].
  intros H. destruct (K_eq_dec x k) as [E|N]; [lia|].
  destruct H as [H|H]; [contradiction|]. specialize (IH H). lia.
Qed.

Lemma first_index_app_l (col rest : list K) (k : K) :
  In k col ->
  first_index K_eq_dec k (col ++ rest) = first_index K_eq_dec k col.
Proof.
  induction col as [|x col IH]; simpl; [tauto|].
  intros H. destruct (K_eq_dec x k) as [E|N]; [reflexivity|].
  destruct H as [H|H]; [contradiction|]. now rewrite IH.
Qed.

Lemma first_index_new (col : list K) (k : K) :
  ~ In k col -> first_index K_eq_dec k (col ++ [k]) = List.length col.
Proof.
  induction col as [|x col IH]; simpl; intros H.
  - destruct (K_eq_dec k k); [reflexivity | contradiction].
  - destruct (K_eq_dec x k) as [E|N]; [tauto|]. rewrite IH; tauto.
Qed.

End TallyFacts.

(** ** Order of the rows of a table *)

Section PrecedesFacts.

Context {A : Type}.

Lemma precedes_In (x y : A) (l : list A) :
  precedes x y l -> In x l /\ In y l.
Proof.
  induction 1 as [l H | z l H [IH1 IH2]]; simpl; auto.
Qed.



Lemma precedes_snoc (x y k : A) (l : list A) :
  precedes x y (l ++ [k]) -> precedes x y l \/ (In x l /\ y = k).
Proof.
  induction l as [|z l IH]; simpl; intros H.
  - inversion H as [? Hy | ? ? Hp]; subst.
    + destruct Hy.
    + inversion Hp.
  - inversion H as [? Hy | ? ? Hp]; subst.
    + apply in_app_or in Hy. destruct Hy as [Hy|[Hy|[]]].
      * left. now apply precedes_here.
      * right. auto.
    + destruct (IH Hp) as [Hl|[Hx Hk]].
      * left. now apply precedes_later.
      * right. auto.
Qed.





Lemma precedes_sorted (R : A -> A -> Prop) (x y : A) (l : list A) :
  StronglySorted R l -> precedes x y l -> R x y.
Proof.
  intros HS H. induction H as [l H | z l H IH].
  - apply StronglySorted_inv in HS. destruct HS as [_ HF].
    rewrite Forall_forall in HF. now apply HF.
  - apply StronglySorted_inv in HS. now apply IH.
Qed.

End PrecedesFacts.

(** The keys of the counting table stand in the order in which they are
    first met in the column. *)
Lemma keys_tally_order {K : Type}
    (K_eq_dec : forall x y : K, {x = y} + {x <> y})
    (col : list K) (a b : K) :
  precedes a b (map fst (tally K_eq_dec col)) ->
  (first_index K_eq_dec a col < first_index K_eq_dec b col)%nat.
Proof.
  induction col as [|x col IH] using rev_ind; simpl; intros H.
  - inversion H.
  - rewrite tally_snoc, keys_bump in H.
    destruct (in_dec K_eq_dec x (map fst (tally K_eq_dec col))) as [Hx|Hx].
    + destruct (precedes_In _ _ _ H) as [Ha Hb].
      apply keys_tally_In in Ha. apply keys_tally_In in Hb.
      rewrite !first_index_app_l by assumption. now apply IH.
    + apply precedes_snoc in H. destruct H as [H|[Ha ->]].
      * destruct (precedes_In _ _ _ H) as [Ha Hb].
        apply keys_tally_In in Ha. apply keys_tally_In in Hb.
        rewrite !first_index_app_l by assumption. now apply IH.
      * apply keys_tally_In in Ha.
        rewrite first_index_app_l by assumption.
        rewrite first_index_new.
        -- now apply first_index_lt.
        -- intros Hin. apply Hx. now apply keys_tally_In.
Qed.

(** ** Insertion sort *)

Section InsertionSortFacts.

Context {A : Type}.
Variable le : A -> A -> bool.

Lemma insert_sorted_perm (x : A) (l : list A) :
  Permutation (x :: l) (insert_sorted le x l).
Proof.
  induction l as [|y l IH]; simpl; [reflexivity|].
  destruct (le x y); [reflexivity|].
  rewrite perm_swap. now apply perm_skip.
Qed.

Lemma isort_perm (l : list A) : Permutation l (isort le l).
Proof.
  induction l as [|x l IH]; simpl; [reflexivity|].
  rewrite <- insert_sorted_perm. now apply perm_skip.
Qed.

Hypothesis le_total : forall x y, le x y = true \/ le y x = true.
Hypothesis le_trans :
  forall x y z, le x y = true -> le y z = true -> le x z = true.

Lemma insert_sorted_sorted (x : A) (l : list A) :
  StronglySorted (fun a b => le a b = true) l ->
  StronglySorted (fun a b => le a b = true) (insert_sorted le x l).
Proof.
  induction l as [|y l IH]; simpl; intros HS.
  - constructor; constructor.
  - apply StronglySorted_inv in HS. destruct HS as [HS HF].
    destruct (le x y) eqn:E.
    + constructor; [constructor; assumption|].
      constructor; [assumption|].
      rewrite Forall_forall in *. intros z Hz.
      apply le_trans with y; auto.
    + constructor; [now apply IH|].
      rewrite Forall_forall in *. intros z Hz.
      apply (Permutation_in _ (Permutation_sym (insert_sorted_perm x l)))
        in Hz.
      destruct Hz as [<-|Hz]; [|now apply HF].
      destruct (le_total x y) as [H|H]; congruence.
Qed.

Lemma isort_sorted (l : list A) :
  StronglySorted (fun a b => le a b = true) (isort le l).
Proof.
  induction l as [|x l IH]; simpl; [constructor|].
  now apply insert_sorted_sorted.
Qed.

End InsertionSortFacts.



(** ** Grouping by over number *)





Lemma StronglySorted_weaken {A : Type} (R R' : A -> A -> Prop)
    (l : list A) :
  (forall a b, R a b -> R' a b) ->
  StronglySorted R l -> StronglySorted R' l.
Proof.
  intros HR. induction 1 as [|a l HS IH HF]; constructor.
  - exact IH.
  - eapply Forall_impl; [|exact HF]. intros b. apply HR.
Qed.



Example example_wickets :
  wickets_df [ball_caught; ball_no_run; ball_no_outcome] = [ball_caught]
  /\ wickets_per_over [ball_caught; ball_no_run; ball_no_outcome]
     = [(14, 1%nat)].
Proof. split; reflexivity. Qed.

(** ** Over number *)

Lemma str_split_whole (sep : ascii) (a : string) :
  mem_char sep a = false -> str_split sep a = [a].
Proof.
  induction a as [|c a IH]; simpl; [reflexivity|].
  intros H. apply orb_false_iff in H. destruct H as [Hc Ha].
  rewrite Hc, (IH Ha). reflexivity.
Qed.

Lemma str_split_first (sep : ascii) (a b : string) :
  mem_char sep a = false ->
  str_get0 (str_split sep (a ++ String sep b)%string) = Some a.
Proof.
  induction a as [|c a IH]; simpl; intros H.
  - now rewrite Ascii.eqb_refl.
  - apply orb_false_iff in H. destruct H as [Hc Ha]. rewrite Hc.
    specialize (IH Ha). unfold str_get0 in IH.
    destruct (str_split sep (a ++ String sep b)%string) as [|w ws];
      simpl in *; [discriminate|].
    now injection IH as ->.
Qed.

Lemma digit_of_digit_char (d : nat) :
  (d < 10)%nat ->
  digit_of (digit_char d) = Some (Z.of_nat d)
  /\ is_space (digit_char d) = false
  /\ Ascii.eqb (digit_char d) "+" = false
  /\ Ascii.eqb (digit_char d) "-" = false.
Proof.
  intros H.
  do 10 (destruct d as [|d]; [repeat split; reflexivity|]). lia.
Qed.

Lemma scan_digits_decimal (ds : list nat) (acc : Z) :
  Forall (fun d => (d < 10)%nat) ds ->
  scan_digits acc false (decimal ds)
  = Some (fold_left (fun acc d => 10 * acc + Z.of_nat d) ds acc,
          EmptyString).
Proof.
  intros HF. revert acc. induction HF as [|d ds Hd HF IH]; intros acc.
  - reflexivity.
  - cbn [decimal scan_digits fold_left].
    destruct (digit_of_digit_char d Hd) as [-> _]. apply IH.
Qed.

Lemma decimal_value_nonneg (ds : list nat) : 0 <= decimal_value ds.
Proof.
  unfold decimal_value.
  assert (H : forall acc, 0 <= acc ->
            0 <= fold_left (fun acc d => 10 * acc + Z.of_nat d) ds acc).
  { induction ds as [|d ds IH]; cbn [fold_left]; intros acc Hacc;
      [assumption|].
    apply IH. lia. }
  apply H. lia.
Qed.

(** The text of a number in decimal digits converts to its value, as
    long as the value fits 64 bits. *)
Lemma py_int_decimal (ds : list nat) :
  ds <> [] ->
  Forall (fun d => (d < 10)%nat) ds ->
  decimal_value ds <= int64_max ->
  py_int (decimal ds) = Some (decimal_value ds).
Proof.
  intros Hne HF Hmax. destruct ds as [|d ds]; [contradiction|].
  pose proof (decimal_value_nonneg (d :: ds)) as Hpos.
  pose proof (scan_digits_decimal (d :: ds) 0 HF) as Hscan.
  fold (decimal_value (d :: ds)) in Hscan.
  inversion HF as [|? ? Hd HF']; subst.
  destruct (digit_of_digit_char d Hd) as [Hdig [Hsp [Hplus Hminus]]].
  unfold py_int. cbn [decimal lstrip]. rewrite Hsp.
  assert (Hsign :
    match String (digit_char d) (decimal ds) with
    | String "+" r => (false, r)
    | String "-" r => (true, r)
    | _ => (false, String (digit_char d) (decimal ds))
    end = (false, String (digit_char d) (decimal ds))).
  { clear - Hd. do 10 (destruct d as [|d]; [reflexivity|]). lia. }
  rewrite Hsign, Hdig. cbn [decimal] in Hscan. rewrite Hscan.
  cbn [all_space andb].
  assert (H1 : (int64_min <=? decimal_value (d :: ds)) = true).
  { apply Z.leb_le. unfold int64_min. lia. }
  assert (H2 : (decimal_value (d :: ds) <=? int64_max) = true)
    by now apply Z.leb_le.
  now rewrite H1, H2.
Qed.

Lemma mem_point_decimal (ds : list nat) :
  Forall (fun d => (d < 10)%nat) ds -> mem_char "." (decimal ds) = false.
Proof.
  induction 1 as [|d ds Hd HF IH]; [reflexivity|].
  cbn [decimal mem_char]. rewrite IH, orb_false_r. clear - Hd.
  do 10 (destruct d as [|d]; [reflexivity|]). lia.
Qed.

(** The over number of an over written as digits, with or without a
    decimal point and a ball part after it, is the value of the digits. *)
Lemma over_number_decimal (ds : list nat) (ball : string) :
  ds <> [] ->
  Forall (fun d => (d < 10)%nat) ds ->
  decimal_value ds <= int64_max ->
  over_number_of (decimal ds ++ String "." ball)%string
    = Some (decimal_value ds)
  /\ over_number_of (decimal ds) = Some (decimal_value ds).
Proof.
  intros Hne HF Hmax. unfold over_number_of.
  rewrite str_split_first by now apply mem_point_decimal.
  rewrite str_split_whole by now apply mem_point_decimal.
  simpl. now rewrite py_int_decimal.
Qed.




Example example_over_number_column :
  over_number_column ["14.3"; "0.1"; "19.6"] = Some [14; 0; 19]
  /\ over_number_column ["14.3"; "nan"; "19.6"] = None.
Proof. split; reflexivity. Qed.


(** ** Top players *)




Section TopPlayersFacts.

Variable sort_values : list (string * nat) -> list (string * nat).

(** What [sort_values(ascending=False)] is taken to do with the table of
    counts: it reorders the rows, leaves the counts descending, and keeps
    rows of equal count in their incoming order. *)
Hypothesis sort_values_perm :
  forall t, Permutation t (sort_values t).
Hypothesis sort_values_descending :
  forall t, StronglySorted (fun p q => (snd q <= snd p)%nat) (sort_values t).
Hypothesis sort_values_stable :
  forall t c,
    filter (fun p => (snd p =? c)%nat) (sort_values t)
    = filter (fun p => (snd p =? c)%nat) t.





End TopPlayersFacts.





(** [sort_values_by] leaves no outcome of a descending sort out: every
    way of putting a table of counts (whose rows are all different, as
    those of [tally] are) in descending order is [sort_values_by] for
    some tie order. *)
Lemma sorted_from_precedes {A : Type} (R : A -> A -> Prop) (l : list A) :
  (forall x y, precedes x y l -> R x y) -> StronglySorted R l.
Proof.
  induction l as [|x l IH]; intros H; constructor.
  - apply IH. intros a b Hab. apply H. now apply precedes_later.
  - apply Forall_forall. intros y Hy. apply H. now apply precedes_here.
Qed.

Lemma precedes_first_index {K : Type}
    (K_eq_dec : forall x y : K, {x = y} + {x <> y})
    (x y : K) (l : list K) :
  NoDup l -> precedes x y l ->
  (first_index K_eq_dec x l < first_index K_eq_dec y l)%nat.
Proof.
  intros ND H. induction H as [l Hy | z l H IH]; simpl;
    inversion ND as [|? ? Hn ND']; subst.
  - destruct (K_eq_dec x x) as [_|N]; [|contradiction].
    destruct (K_eq_dec x y) as [E|_]; [subst; contradiction | lia].
  - destruct (precedes_In _ _ _ H) as [Hx Hy].
    destruct (K_eq_dec z x) as [E|_]; [subst; contradiction|].
    destruct (K_eq_dec z y) as [E|_]; [subst; contradiction|].
    specialize (IH ND'). lia.
Qed.

Lemma first_index_inj {K : Type}
    (K_eq_dec : forall x y : K, {x = y} + {x <> y})
    (x y : K) (l : list K) :
  In x l -> In y l ->
  first_index K_eq_dec x l = first_index K_eq_dec y l -> x = y.
Proof.
  induction l as [|z l IH]; simpl; [tauto|].
  intros Hx Hy.
  destruct (K_eq_dec z x) as [Ex|Nx], (K_eq_dec z y) as [Ey|Ny];
    try congruence; try discriminate.
  intros E. injection E as E.
  destruct Hx as [Hx|Hx]; [contradiction|].
  destruct Hy as [Hy|Hy]; [contradiction|]. now apply IH.
Qed.

Lemma sorted_perm_unique {A : Type} (le : A -> A -> bool) (l l' : list A) :
  (forall x y, In x l -> In y l ->
               le x y = true -> le y x = true -> x = y) ->
  StronglySorted (fun a b => le a b = true) l ->
  StronglySorted (fun a b => le a b = true) l' ->
  Permutation l l' -> l = l'.
Proof.
  revert l'. induction l as [|x l IH]; intros l' Hanti HS HS' HP.
  - apply Permutation_nil in HP. now subst.
  - destruct l' as [|y l'].
    + apply Permutation_sym, Permutation_nil in HP. discriminate.
    + apply StronglySorted_inv in HS. destruct HS as [HS HF].
      apply StronglySorted_inv in HS'. destruct HS' as [HS' HF'].
      rewrite Forall_forall in HF, HF'.
      assert (Hxy : x = y).
      { assert (Hx : In x (y :: l'))
          by (apply (Permutation_in _ HP); now left).
        assert (Hy : In y (x :: l))
          by (apply (Permutation_in _ (Permutation_sym HP)); now left).
        destruct Hx as [Hx|Hx]; [now symmetry|].
        destruct Hy as [Hy|Hy]; [assumption|].
        apply Hanti; [now left | now right | now apply HF | now apply HF']. }
      subst y. f_equal. apply IH; try assumption.
      * intros a b Ha Hb. apply Hanti; now right.
      * now apply Permutation_cons_inv in HP.
Qed.

Lemma sort_values_by_covers_every_descending_order
    (t s : list (string * nat)) :
  NoDup s -> Permutation t s ->
  StronglySorted (fun p q => (snd q <= snd p)%nat) s ->
  sort_values_by (tie_as_in s) t = s.
Proof.
  intros ND HP HS. unfold sort_values_by.
  apply sorted_perm_unique with (le := count_order (tie_as_in s)).
  - intros x y Hx Hy Hxy Hyx.
    pose proof (isort_perm (count_order (tie_as_in s)) t) as Hsort.
    assert (Hxs : In x s).
    { apply (Permutation_in _ HP).
      now apply (Permutation_in _ (Permutation_sym Hsort)). }
    assert (Hys : In y s).
    { apply (Permutation_in _ HP).
      now apply (Permutation_in _ (Permutation_sym Hsort)). }
    apply (first_index_inj count_row_dec x y s Hxs Hys).
    unfold count_order, tie_as_in in Hxy, Hyx.
    apply orb_true_iff in Hxy. apply orb_true_iff in Hyx.
    rewrite !andb_true_iff, !Nat.ltb_lt, !Nat.eqb_eq, !Nat.leb_le in *.
    lia.
  - apply isort_sorted; unfold count_order, tie_as_in.
    + intros x y.
      rewrite !orb_true_iff, !andb_true_iff, !Nat.ltb_lt, !Nat.eqb_eq,
        !Nat.leb_le. lia.
    + intros x y z.
      rewrite !orb_true_iff, !andb_true_iff, !Nat.ltb_lt, !Nat.eqb_eq,
        !Nat.leb_le. lia.
  - apply sorted_from_precedes. intros x y Hxy.
    pose proof (precedes_sorted _ _ _ _ HS Hxy) as Hc. simpl in Hc.
    pose proof (precedes_first_index count_row_dec x y s ND Hxy) as Hi.
    unfold count_order, tie_as_in.
    rewrite orb_true_iff, andb_true_iff, Nat.ltb_lt, Nat.eqb_eq,
      Nat.leb_le. lia.
  - apply Permutation_trans with t; [|assumption].
    apply Permutation_sym, isort_perm.
Qed.



Example example_top_players_ties_reversed :
  top_batters (sort_values_by (fun _ _ => false)) sample_balls
    = [("R. Batter", 2%nat); ("T. Batter", 2%nat)]
  /\ top_batters (sort_values_by (fun _ _ => true)) sample_balls
     = [("T. Batter", 2%nat); ("R. Batter", 2%nat)].
Proof. split; reflexivity. Qed.

Example example_top_players :
  top_batters (isort count_ge) sample_balls
    = [("T. Batter", 2%nat); ("R. Batter", 2%nat)]
  /\ top_bowlers (isort count_ge) sample_balls
     = [("S. Bowler", 3%nat); ("U. Bowler", 2%nat)].
Proof. split; reflexivity. Qed.


(** * Further properties of the script *)

(** ** Filter engine: composition and totals *)

Lemma filter_filter_impl {A : Type} (f g : A -> bool) (l : list A) :
  (forall x, f x = true -> g x = true) ->
  filter f (filter g l) = filter f l.
Proof.
  intros H. induction l as [|x l IH]; simpl; [reflexivity|].
  destruct (g x) eqn:G; simpl.
  - now rewrite IH.
  - destruct (f x) eqn:F; [|assumption].
    rewrite (H x F) in G. discriminate.
Qed.

Lemma match_mask_mono sf sf' tf tf' s s' e e' (m : MatchRecord) :
  incl sf sf' -> incl tf tf' -> s' <= s -> e <= e' ->
  match_mask sf tf s e m = true -> match_mask sf' tf' s' e' m = true.
Proof.
  intros Hs Ht Hlo Hhi H. apply match_mask_spec in H.
  destruct H as [H1 [[d [Hd Hr]] H3]].
  apply match_mask_spec. split; [now apply Hs|]. split.
  - exists d. split; [assumption | lia].
  - destruct H3 as [H3|H3]; [left | right]; now apply Ht.
Qed.

Lemma ball_mask_mono (fm gm : list MatchRecord) (b : BallEvent) :
  incl fm gm -> ball_mask fm b = true -> ball_mask gm b = true.
Proof.
  intros Hi H. apply ball_mask_spec in H. destruct H as [m [Hm E]].
  apply ball_mask_spec. exists m. split; [now apply Hi | assumption].
Qed.

(** Narrowing a selection can start from the tables of the wider
    selection: with fewer seasons, fewer teams and a shorter date range,
    filtering the already filtered pair of tables gives the same pair as
    filtering the full tables. *)
Theorem filter_engine_from_wider_selection :
  forall (sf sf' tf tf' : list string) (s s' e e' : Z)
         (ms : list MatchRecord) (bs : list BallEvent),
    incl sf sf' -> incl tf tf' -> s' <= s -> e <= e' ->
    filter_engine sf tf s e
      (fst (filter_engine sf' tf' s' e' ms bs))
      (snd (filter_engine sf' tf' s' e' ms bs))
    = filter_engine sf tf s e ms bs.
Proof.
  intros sf sf' tf tf' s s' e e' ms bs Hs Ht Hlo Hhi.
  unfold filter_engine, filtered_ball_df, filtered_match_df. simpl.
  assert (Hm : filter (match_mask sf tf s e)
                 (filter (match_mask sf' tf' s' e') ms)
               = filter (match_mask sf tf s e) ms).
  { apply filter_filter_impl. intros m. now apply match_mask_mono. }
  rewrite Hm. f_equal.
  apply filter_filter_impl. intros b. apply ball_mask_mono.
  intros m Hin. apply filter_In in Hin. destruct Hin as [Hin Hmask].
  apply filter_In. split; [assumption|].
  now apply (match_mask_mono sf sf' tf tf' s s' e e').
Qed.

Lemma filter_engine_from_wider_selection_witness :
  filter_engine ["2020"] ["C"] 18323 18323
    (fst (filter_engine ["2019"; "2020"] ["A"; "C"] 18262 18627
            [match_2020; match_no_margin] sample_balls))
    (snd (filter_engine ["2019"; "2020"] ["A"; "C"] 18262 18627
            [match_2020; match_no_margin] sample_balls))
  = filter_engine ["2020"] ["C"] 18323 18323
      [match_2020; match_no_margin] sample_balls.
Proof.
  apply (filter_engine_from_wider_selection
           ["2020"] ["2019"; "2020"] ["C"] ["A"; "C"]
           18323 18262 18323 18627).
  - intros x [<-|[]]. right. now left.
  - intros x [<-|[]]. right. now left.
  - lia.
  - lia.
Defined.

Lemma distinct_keys_of_selection {R : Type} (key : R -> Z)
    (keep : R -> bool) (rows : list R)
    (Hkeys : NoDup (map key rows)) :
  NoDup (map key (filter keep rows)).
Proof.
  induction rows as [|r rows IH]; simpl; [constructor|].
  simpl in Hkeys. inversion Hkeys as [|? ? Hn Hd]; subst.
  destruct (keep r); simpl; [|now apply IH].
  constructor; [|now apply IH].
  intros Hin. apply Hn. apply in_map_iff in Hin.
  destruct Hin as [y [E Hy]]. apply filter_In in Hy.
  apply in_map_iff. exists y. tauto.
Qed.

Lemma length_filter_isin {A : Type} (f : A -> Z) (keys : list Z)
    (l : list A) :
  NoDup keys ->
  List.length (filter (fun x => isin Z.eqb (f x) keys) l)
  = list_sum
      (map (fun k => List.length (filter (fun x => f x =? k) l)) keys).
Proof.
  intros ND. induction l as [|x l IH].
  - simpl. induction keys as [|k keys IHk]; simpl; [reflexivity|].
    inversion ND; subst. now rewrite <- IHk.
  - assert (Hone : forall ks, NoDup ks ->
              list_sum
                (map (fun k =>
                        List.length (filter (fun y => f y =? k) (x :: l)))
                     ks)
              = Nat.add
                  (if isin Z.eqb (f x) ks then 1%nat else 0%nat)
                  (list_sum
                     (map (fun k =>
                             List.length (filter (fun y => f y =? k) l))
                          ks))).
    { clear. intros ks. induction ks as [|k ks IHk]; intros ND;
        [reflexivity|].
      inversion ND as [|? ? Hn ND']; subst.
      unfold list_sum in *. cbn [map fold_right]. rewrite (IHk ND').
      unfold isin. cbn [existsb filter].
      destruct (f x =? k) eqn:E; cbn [orb List.length].
      - apply Z.eqb_eq in E. subst k.
        destruct (existsb (Z.eqb (f x)) ks) eqn:Ex; [|lia].
        exfalso. apply Hn. apply existsb_exists in Ex.
        destruct Ex as [y [Hy Ey]]. apply Z.eqb_eq in Ey. now subst.
      - lia. }
    rewrite (Hone keys ND), <- IH. cbn [filter].
    destruct (isin Z.eqb (f x) keys); simpl; lia.
Qed.

(** When no two matches of the table share a match number, the number of
    balls shown (line 71) is the sum, over the matches shown, of the
    number of balls of the table that carry that match's number. *)
Theorem total_balls_is_sum_over_matches :
  forall (sf tf : list string) (s e : Z) (ms : list MatchRecord)
         (bs : list BallEvent),
    NoDup (map match_number ms) ->
    total_balls (filtered_ball_df sf tf s e ms bs)
    = list_sum
        (map (fun m =>
                List.length
                  (filter (fun b => match_no b =? match_number m) bs))
             (filtered_match_df sf tf s e ms)).
Proof.
  intros sf tf s e ms bs ND.
  unfold total_balls, filtered_ball_df, ball_mask.
  rewrite (length_filter_isin match_no).
  - now rewrite map_map.
  - now apply distinct_keys_of_selection.
Qed.

Lemma total_balls_is_sum_over_matches_witness :
  total_balls
    (filtered_ball_df ["2020"] ["A"] 18262 18627
       [match_2020; match_no_margin] sample_balls)
  = list_sum
      (map (fun m =>
              List.length
                (filter (fun b => match_no b =? match_number m)
                        sample_balls))
           (filtered_match_df ["2020"] ["A"] 18262 18627
              [match_2020; match_no_margin])).
Proof.
  apply (total_balls_is_sum_over_matches ["2020"] ["A"] 18262 18627
           [match_2020; match_no_margin] sample_balls).
  constructor.
  - intros [H|[]]. discriminate H.
  - constructor; [intros [] | constructor].
Defined.

(** ** Sidebar options and defaults *)

Lemma unique_snoc (col : list string) (x : string) :
  unique (col ++ [x]) = unique_add x (unique col).
Proof. unfold unique. now rewrite fold_left_app. Qed.

Lemma unique_keys_tally (col : list string) :
  unique col = map fst (tally string_dec col).
Proof.
  induction col as [|x col IH] using rev_ind; [reflexivity|].
  rewrite unique_snoc, tally_snoc, keys_bump, <- IH. reflexivity.
Qed.

Lemma season_options_In (ms : list MatchRecord) (x : string) :
  In x (season_options ms) <-> exists m, In m ms /\ season m = x.
Proof.
  unfold season_options.
  rewrite unique_keys_tally, keys_tally_In, in_map_iff. split.
  - intros [m [E H]]. now exists m.
  - intros [m [H E]]. now exists m.
Qed.

(** The seasons offered by the season filter are the seasons of the match
    table, each listed once, in the order in which the table first shows
    them. *)
Theorem season_options_first_appearance :
  forall ms : list MatchRecord,
    NoDup (season_options ms)
    /\ (forall x,
           In x (season_options ms) <-> exists m, In m ms /\ season m = x)
    /\ (forall a b,
           precedes a b (season_options ms) ->
           (first_index string_dec a (map season ms)
            < first_index string_dec b (map season ms))%nat).
Proof.
  intros ms. split; [|split].
  - unfold season_options. rewrite unique_keys_tally.
    apply keys_tally_NoDup.
  - apply season_options_In.
  - unfold season_options. rewrite unique_keys_tally.
    intros a b. apply keys_tally_order.
Qed.

Lemma string_compare_trans (s1 s2 s3 : string) :
  String.compare s1 s2 <> Gt -> String.compare s2 s3 <> Gt ->
  String.compare s1 s3 <> Gt.
Proof.
  revert s2 s3. induction s1 as [|c1 s1 IH]; intros [|c2 s2] [|c3 s3];
    simpl; try congruence.
  unfold Ascii.compare.
  destruct (N.compare_spec (N_of_ascii c1) (N_of_ascii c2)) as [E12|L12|G12];
    destruct (N.compare_spec (N_of_ascii c2) (N_of_ascii c3))
      as [E23|L23|G23];
    destruct (N.compare_spec (N_of_ascii c1) (N_of_ascii c3))
      as [E13|L13|G13];
    try congruence; try lia.
  apply IH.
Qed.

Lemma string_leb_trans (s1 s2 s3 : string) :
  String.leb s1 s2 = true -> String.leb s2 s3 = true ->
  String.leb s1 s3 = true.
Proof.
  unfold String.leb. intros H12 H23.
  pose proof (string_compare_trans s1 s2 s3) as H.
  destruct (String.compare s1 s2); try discriminate;
    destruct (String.compare s2 s3); try discriminate;
    destruct (String.compare s1 s3); try reflexivity;
    exfalso; apply H; congruence.
Qed.

Lemma teams_In (ms : list MatchRecord) (x : string) :
  In x (teams ms) <-> exists m, In m ms /\ (team1 m = x \/ team2 m = x).
Proof.
  unfold teams. split.
  - intros H.
    apply (Permutation_in _ (Permutation_sym (isort_perm String.leb _)))
      in H.
    apply nodup_In, in_app_or in H.
    destruct H as [H|H]; apply in_map_iff in H;
      destruct H as [m [E H]]; exists m; tauto.
  - intros [m [H E]].
    apply (Permutation_in _ (isort_perm String.leb _)).
    apply nodup_In, in_or_app.
    destruct E as [E|E]; [left | right]; apply in_map_iff; now exists m.
Qed.

(** The teams offered by the team filter are the names found in the team1
    or team2 column, each listed once, in the order of the strings. *)
Theorem teams_sorted_distinct :
  forall ms : list MatchRecord,
    StronglySorted (fun a b => String.leb a b = true) (teams ms)
    /\ NoDup (teams ms)
    /\ (forall x,
           In x (teams ms) <->
           exists m, In m ms /\ (team1 m = x \/ team2 m = x)).
Proof.
  intros ms. split; [|split].
  - unfold teams. apply isort_sorted.
    + apply String.leb_total.
    + apply string_leb_trans.
  - unfold teams.
    apply (Permutation_NoDup (isort_perm String.leb _)).
    apply NoDup_nodup.
  - apply teams_In.
Qed.

Lemma In_dropna {A : Type} (col : list (option A)) (x : A) :
  In x (dropna col) <-> In (Some x) col.
Proof.
  induction col as [|[y|] col IH]; simpl.
  - tauto.
  - rewrite IH. split; intros [H|H]; auto; left; congruence.
  - rewrite IH. split; [auto | intros [H|H]; [discriminate | assumption]].
Qed.

Lemma fold_min_le (ds : list Z) (a : Z) :
  fold_left Z.min ds a <= a
  /\ forall d, In d ds -> fold_left Z.min ds a <= d.
Proof.
  revert a. induction ds as [|x ds IH]; intros a; simpl.
  - split; [lia | tauto].
  - destruct (IH (Z.min a x)) as [H1 H2]. split; [lia|].
    intros d [<-|Hd]; [lia | now apply H2].
Qed.

Lemma fold_max_ge (ds : list Z) (a : Z) :
  a <= fold_left Z.max ds a
  /\ forall d, In d ds -> d <= fold_left Z.max ds a.
Proof.
  revert a. induction ds as [|x ds IH]; intros a; simpl.
  - split; [lia | tauto].
  - destruct (IH (Z.max a x)) as [H1 H2]. split; [lia|].
    intros d [<-|Hd]; [lia | now apply H2].
Qed.

Lemma series_min_le (col : list (option Z)) (lo d : Z) :
  series_min col = Some lo -> In (Some d) col -> lo <= d.
Proof.
  unfold series_min. intros H Hin. apply In_dropna in Hin.
  destruct (dropna col) as [|d0 ds]; [discriminate|].
  injection H as <-. destruct (fold_min_le ds d0) as [H1 H2].
  destruct Hin as [<-|Hin]; [assumption | now apply H2].
Qed.

Lemma series_max_ge (col : list (option Z)) (hi d : Z) :
  series_max col = Some hi -> In (Some d) col -> d <= hi.
Proof.
  unfold series_max. intros H Hin. apply In_dropna in Hin.
  destruct (dropna col) as [|d0 ds]; [discriminate|].
  injection H as <-. destruct (fold_max_ge ds d0) as [H1 H2].
  destruct Hin as [<-|Hin]; [assumption | now apply H2].
Qed.

(** With the sidebar left at its defaults (every season, every team, first
    to last day of the table) the filter keeps every match that has a
    date, in the order of the table; if no date is missing the match table
    is shown whole. *)
Theorem default_selection_keeps_dated_matches :
  forall (ms : list MatchRecord) (lo hi : Z),
    default_date_filter ms = Some (lo, hi) ->
    filtered_match_df (season_options ms) (teams ms) lo hi ms
    = filter (fun m => match date m with Some _ => true | None => false end)
             ms
    /\ ((forall m, In m ms -> date m <> None) ->
        filtered_match_df (season_options ms) (teams ms) lo hi ms = ms).
Proof.
  intros ms lo hi Hd. unfold default_date_filter in Hd.
  destruct (series_min (map date ms)) as [lo'|] eqn:Hmin; [|discriminate].
  destruct (series_max (map date ms)) as [hi'|] eqn:Hmax; [|discriminate].
  injection Hd as -> ->.
  assert (Hmask : forall m, In m ms ->
            match_mask (season_options ms) (teams ms) lo hi m
            = match date m with Some _ => true | None => false end).
  { intros m Hm. destruct (date m) as [d|] eqn:E.
    - apply match_mask_spec. split; [|split].
      + apply season_options_In. now exists m.
      + exists d. split; [assumption|].
        assert (Hin : In (Some d) (map date ms)).
        { rewrite <- E. now apply in_map. }
        split; [now apply (series_min_le _ _ _ Hmin)
               | now apply (series_max_ge _ _ _ Hmax)].
      + left. apply teams_In. exists m. auto.
    - unfold match_mask. rewrite E. simpl. now rewrite andb_false_r. }
  split.
  - unfold filtered_match_df. now apply filter_ext_in.
  - intros Hall. unfold filtered_match_df.
    rewrite (filter_ext_in _ (fun _ => true)).
    + clear. induction ms as [|m ms IH]; simpl; congruence.
    + intros m Hm. rewrite (Hmask m Hm).
      specialize (Hall m Hm). now destruct (date m).
Qed.

Lemma default_selection_keeps_dated_matches_witness :
  default_date_filter [match_2020; match_no_margin] = Some (18322, 18323)
  /\ filtered_match_df (season_options [match_2020; match_no_margin])
       (teams [match_2020; match_no_margin]) 18322 18323
       [match_2020; match_no_margin]
     = [match_2020; match_no_margin].
Proof.
  split; [reflexivity|].
  apply (default_selection_keeps_dated_matches
           [match_2020; match_no_margin] 18322 18323).
  - reflexivity.
  - intros m [<-|[<-|[]]]; discriminate.
Defined.

(** ** Preprocessing and the filter *)

Lemma filter_map_swap {A B : Type} (g : A -> B) (f : B -> bool)
    (l : list A) :
  filter f (map g l) = map g (filter (fun x => f (g x)) l).
Proof.
  induction l as [|x l IH]; simpl; [reflexivity|].
  destruct (f (g x)); simpl; now rewrite IH.
Qed.

(** Filling the missing cells does not change what the filter selects: the
    matches kept from the filled table are the filled versions of the
    matches kept from the table as read, the balls kept are the same, and
    filling a second time changes nothing. *)
Theorem fillna_commutes_with_filter :
  forall (sf tf : list string) (s e : Z) (ms : list MatchRecord)
         (bs : list BallEvent),
    filtered_match_df sf tf s e (map fillna ms)
      = map fillna (filtered_match_df sf tf s e ms)
    /\ filtered_ball_df sf tf s e (map fillna ms) bs
       = filtered_ball_df sf tf s e ms bs
    /\ map fillna (map fillna ms) = map fillna ms.
Proof.
  intros sf tf s e ms bs.
  assert (Hm : filtered_match_df sf tf s e (map fillna ms)
               = map fillna (filtered_match_df sf tf s e ms)).
  { unfold filtered_match_df. rewrite filter_map_swap. reflexivity. }
  split; [exact Hm | split].
  - unfold filtered_ball_df, ball_mask. rewrite Hm, map_map. reflexivity.
  - rewrite map_map. apply map_ext. intros m. unfold fillna. simpl.
    destruct (winner_runs m), (winner_wickets m), (man_of_match m);
      reflexivity.
Qed.

(** A missing winner-by-wickets margin becomes 0 in preprocessing, and the
    Win Margin by Wickets table keeps exactly the rows whose margin is
    greater than 0: a match won by runs, whose wickets margin is 0 or
    was missing, is not in it. *)
Theorem win_by_wickets_keeps_positive_margins :
  forall (fm : list MatchRecord) (m : MatchRecord),
    (In m (win_by_wickets fm) <->
       In m fm /\ exists w, winner_wickets m = Some w /\ 0 < w)
    /\ (In (fillna m) (win_by_wickets (map fillna fm)) <->
          In (fillna m) (map fillna fm)
          /\ exists w, winner_wickets m = Some w /\ 0 < w).
Proof.
  assert (H : forall fm m,
            In m (win_by_wickets fm) <->
            In m fm /\ exists w, winner_wickets m = Some w /\ 0 < w).
  { intros fm m. unfold win_by_wickets. rewrite filter_In. unfold gt0.
    destruct (winner_wickets m) as [w|].
    - rewrite Z.ltb_lt. split.
      + intros [H1 H2]. split; [assumption|]. now exists w.
      + intros [H1 [w' [E H2]]]. injection E as ->. now split.
    - split.
      + intros [_ H]. discriminate.
      + intros [_ [w [E _]]]. discriminate. }
  intros fm m. split; [apply H|].
  rewrite H. simpl. destruct (winner_wickets m) as [w|]; simpl.
  - reflexivity.
  - split.
    + intros [_ [w [E Hw]]]. injection E as <-. lia.
    + intros [_ [w [E _]]]. discriminate.
Qed.

(** ** Runs per over *)

Lemma sums_exact_snoc (rows : list (Z * Z)) (r : Z * Z) :
  sums_exact (rows ++ [r]) = add_exact (fst r) (snd r) (sums_exact rows).
Proof. unfold sums_exact. now rewrite fold_left_app. Qed.

Lemma get_sum_add_exact (k k0 v : Z) (t : list (Z * Z)) :
  get_sum k (add_exact k0 v t)
  = if Z.eq_dec k k0 then get_sum k t + v else get_sum k t.
Proof.
  induction t as [|[k1 s] t IH]; cbn [add_exact get_sum].
  - destruct (Z.eq_dec k k0); lia.
  - destruct (Z.eq_dec k0 k1) as [E|N]; cbn [get_sum].
    + subst k1. destruct (Z.eq_dec k k0); reflexivity.
    + destruct (Z.eq_dec k k1) as [E1|N1]; [|exact IH].
      subst k1. destruct (Z.eq_dec k k0); [congruence | reflexivity].
Qed.

Lemma keys_add_exact (k v : Z) (t : list (Z * Z)) :
  map fst (add_exact k v t)
  = if in_dec Z.eq_dec k (map fst t) then map fst t else map fst t ++ [k].
Proof.
  induction t as [|[k1 s] t IH]; cbn [add_exact map fst]; [reflexivity|].
  destruct (Z.eq_dec k k1) as [E|N]; cbn [map fst].
  - subst k1. destruct (in_dec Z.eq_dec k (k :: map fst t)) as [H|H];
      [reflexivity | exfalso; apply H; now left].
  - rewrite IH.
    destruct (in_dec Z.eq_dec k (map fst t)) as [H|H];
      destruct (in_dec Z.eq_dec k (k1 :: map fst t)) as [H'|H'];
      try reflexivity.
    + exfalso. apply H'. now right.
    + exfalso. destruct H' as [H'|H']; [congruence | contradiction].
Qed.

Lemma keys_sums_exact_In (rows : list (Z * Z)) (k : Z) :
  In k (map fst (sums_exact rows)) <-> In k (map fst rows).
Proof.
  induction rows as [|r rows IH] using rev_ind; [reflexivity|].
  rewrite sums_exact_snoc, keys_add_exact, map_app, in_app_iff. simpl.
  destruct (in_dec Z.eq_dec (fst r) (map fst (sums_exact rows))) as [H|H].
  - rewrite IH. split; [tauto|].
    intros [H'|[H'|[]]]; [assumption|]. subst. now apply IH.
  - rewrite in_app_iff, IH. simpl. tauto.
Qed.

Lemma keys_sums_exact_NoDup (rows : list (Z * Z)) :
  NoDup (map fst (sums_exact rows)).
Proof.
  induction rows as [|r rows IH] using rev_ind; [constructor|].
  rewrite sums_exact_snoc, keys_add_exact.
  destruct (in_dec Z.eq_dec (fst r) (map fst (sums_exact rows))) as [H|H];
    [assumption|].
  apply NoDup_app; [assumption | constructor; [intros [] | constructor] |].
  intros a Ha [E|[]]. now subst.
Qed.

Lemma key_sum_snoc (k : Z) (rows : list (Z * Z)) (r : Z * Z) :
  key_sum k (rows ++ [r])
  = key_sum k rows + (if Z.eq_dec k (fst r) then snd r else 0).
Proof.
  unfold key_sum. rewrite filter_app, map_app. cbn [filter].
  assert (Happ : forall l l', sumZ (l ++ l') = sumZ l + sumZ l').
  { intros l l'. induction l as [|x l IH]; simpl; [reflexivity | lia]. }
  rewrite Happ. f_equal.
  destruct (Z.eq_dec k (fst r)) as [E|N].
  - subst k. rewrite Z.eqb_refl. simpl. lia.
  - assert (Hn : (fst r =? k) = false) by (apply Z.eqb_neq; congruence).
    now rewrite Hn.
Qed.

Lemma get_sum_sums_exact (rows : list (Z * Z)) (k : Z) :
  get_sum k (sums_exact rows) = key_sum k rows.
Proof.
  induction rows as [|r rows IH] using rev_ind; [reflexivity|].
  rewrite sums_exact_snoc, get_sum_add_exact, key_sum_snoc, IH.
  destruct (Z.eq_dec k (fst r)); lia.
Qed.

Lemma In_get_sum (t : list (Z * Z)) (k s : Z) :
  NoDup (map fst t) ->
  (In (k, s) t <-> In k (map fst t) /\ s = get_sum k t).
Proof.
  induction t as [|[k0 s0] t IH]; cbn [map fst get_sum In]; intros ND.
  - tauto.
  - inversion ND as [|? ? Hn ND']; subst. specialize (IH ND').
    destruct (Z.eq_dec k k0) as [E|N].
    + subst k0. split.
      * intros [H|H]; [injection H as ->; auto|].
        exfalso. apply Hn. now apply (in_map fst) in H.
      * intros [_ ->]. now left.
    + rewrite IH. split.
      * intros [H|H]; [congruence | tauto].
      * intros [[H|H] Hc]; [congruence | tauto].
Qed.

Lemma sums_exact_In (rows : list (Z * Z)) (k s : Z) :
  In (k, s) (sums_exact rows) <->
  In k (map fst rows) /\ s = key_sum k rows.
Proof.
  rewrite In_get_sum by apply keys_sums_exact_NoDup.
  now rewrite keys_sums_exact_In, get_sum_sums_exact.
Qed.

Lemma sumZ_add_exact (k v : Z) (t : list (Z * Z)) :
  sumZ (map snd (add_exact k v t)) = sumZ (map snd t) + v.
Proof.
  induction t as [|[k1 s] t IH]; cbn [add_exact map snd sumZ fold_right].
  - lia.
  - destruct (Z.eq_dec k k1); cbn [map snd sumZ fold_right].
    + fold (sumZ (map snd t)). lia.
    + fold (sumZ (map snd (add_exact k v t))). fold (sumZ (map snd t)). lia.
Qed.

Lemma sumZ_sums_exact (rows : list (Z * Z)) :
  sumZ (map snd (sums_exact rows)) = sumZ (map snd rows).
Proof.
  induction rows as [|r rows IH] using rev_ind; [reflexivity|].
  rewrite sums_exact_snoc, sumZ_add_exact, IH, map_app.
  clear. induction (map snd rows) as [|x l IH]; simpl in *; lia.
Qed.

Lemma abs_total_snoc (rows : list (Z * Z)) (r : Z * Z) :
  abs_total (rows ++ [r]) = abs_total rows + Z.abs (snd r).
Proof.
  unfold abs_total. rewrite map_app.
  induction (map (fun r0 : Z * Z => Z.abs (snd r0)) rows) as [|x l IH];
    simpl in *; lia.
Qed.

Lemma key_sum_bound (k : Z) (rows : list (Z * Z)) :
  Z.abs (key_sum k rows) <= abs_total rows.
Proof.
  induction rows as [|r rows IH] using rev_ind.
  - unfold key_sum, abs_total. simpl. lia.
  - rewrite key_sum_snoc, abs_total_snoc.
    destruct (Z.eq_dec k (fst r)); lia.
Qed.

Lemma wrap64_in_range (z : Z) :
  int64_min <= z <= int64_max -> wrap64 z = z.
Proof.
  unfold int64_min, int64_max, wrap64. intros H.
  rewrite Z.mod_small; lia.
Qed.

Lemma add_to_exact (k v : Z) (t : list (Z * Z)) :
  int64_min <= get_sum k t + v <= int64_max ->
  add_to k v t = add_exact k v t.
Proof.
  induction t as [|[k1 s] t IH]; cbn [add_to add_exact get_sum]; intros H.
  - rewrite wrap64_in_range; [reflexivity | lia].
  - destruct (Z.eq_dec k k1).
    + now rewrite wrap64_in_range.
    + now rewrite IH.
Qed.

Lemma running_sums_exact (rows : list (Z * Z)) :
  abs_total rows <= int64_max ->
  fold_left (fun t r => add_to (fst r) (snd r) t) rows [] = sums_exact rows.
Proof.
  induction rows as [|r rows IH] using rev_ind; intros H; [reflexivity|].
  rewrite fold_left_app, sums_exact_snoc. cbn [fold_left].
  rewrite abs_total_snoc in H.
  rewrite IH by lia. apply add_to_exact.
  rewrite get_sum_sums_exact.
  pose proof (key_sum_bound (fst r) rows) as Hb.
  unfold int64_min, int64_max in *. lia.
Qed.

Lemma sumZ_perm (l l' : list Z) : Permutation l l' -> sumZ l = sumZ l'.
Proof.
  induction 1; simpl in *; lia.
Qed.

Lemma key_sum_balls (n : Z) (fb : list BallEvent) :
  key_sum n (map (fun b => (over_number b, score b)) fb)
  = sumZ (map score (filter (fun b => over_number b =? n) fb)).
Proof.
  unfold key_sum. induction fb as [|b fb IH]; [reflexivity|].
  cbn [map filter fst]. destruct (over_number b =? n); cbn [map snd sumZ];
    simpl in *; now rewrite IH.
Qed.

(** As long as the runs of the table add up within 64 bits, the runs per
    over hold one row per over number that has a ball, over numbers
    ascending, with the sum of the runs of the balls of that over; the
    rows add up to the runs of the whole table. *)
Theorem overs_summary_sums_runs_per_over :
  forall fb : list BallEvent,
    sumZ (map (fun b => Z.abs (score b)) fb) <= int64_max ->
    (forall n s,
        In (n, s) (overs_summary fb) <->
        (exists b, In b fb /\ over_number b = n)
        /\ s = sumZ (map score (filter (fun b => over_number b =? n) fb)))
    /\ NoDup (map fst (overs_summary fb))
    /\ StronglySorted (fun p q => fst p <= fst q) (overs_summary fb)
    /\ sumZ (map snd (overs_summary fb)) = sumZ (map score fb).
Proof.
  intros fb Hb. unfold overs_summary, groupby_sum.
  set (rows := map (fun b => (over_number b, score b)) fb).
  assert (Hrows : abs_total rows <= int64_max).
  { unfold abs_total, rows. now rewrite map_map. }
  rewrite (running_sums_exact rows Hrows).
  pose proof (isort_perm sum_key_le (sums_exact rows)) as Hperm.
  split; [|split; [|split]].
  - intros n s. split.
    + intros H. apply (Permutation_in _ (Permutation_sym Hperm)) in H.
      apply sums_exact_In in H. destruct H as [Hk ->].
      unfold rows in Hk. rewrite map_map in Hk. apply in_map_iff in Hk.
      destruct Hk as [b [E Hin]]. split; [now exists b|].
      apply key_sum_balls.
    + intros [[b [Hin E]] ->]. apply (Permutation_in _ Hperm).
      apply sums_exact_In. split.
      * unfold rows. rewrite map_map. apply in_map_iff. now exists b.
      * symmetry. apply key_sum_balls.
  - apply (Permutation_NoDup (l := map fst (sums_exact rows))).
    + now apply Permutation_map.
    + apply keys_sums_exact_NoDup.
  - apply StronglySorted_weaken with (R := fun p q => sum_key_le p q = true).
    + intros p q H. unfold sum_key_le in H. now apply Z.leb_le.
    + apply isort_sorted; unfold sum_key_le.
      * intros p q. rewrite !Z.leb_le. lia.
      * intros p q r. rewrite !Z.leb_le. lia.
  - rewrite <- (sumZ_perm _ _ (Permutation_map snd Hperm)).
    rewrite sumZ_sums_exact. unfold rows. now rewrite map_map.
Qed.

Lemma overs_summary_sums_runs_per_over_witness :
  sumZ (map (fun b => Z.abs (score b)) sample_balls) <= int64_max
  /\ sumZ (map snd (overs_summary sample_balls))
     = sumZ (map score sample_balls).
Proof.
  split; [vm_compute; discriminate|].
  apply (overs_summary_sums_runs_per_over sample_balls).
  vm_compute. discriminate.
Defined.

(** ** Totals of the counting tables *)

Lemma list_sum_bump {K : Type}
    (K_eq_dec : forall x y : K, {x = y} + {x <> y})
    (k : K) (t : list (K * nat)) :
  list_sum (map snd (bump K_eq_dec k t)) = S (list_sum (map snd t)).
Proof.
  induction t as [|[k0 c] t IH]; [reflexivity|].
  cbn [bump]. destruct (K_eq_dec k k0); cbn [map snd list_sum fold_right].
  - reflexivity.
  - unfold list_sum in IH. rewrite IH. lia.
Qed.

Lemma list_sum_tally {K : Type}
    (K_eq_dec : forall x y : K, {x = y} + {x <> y}) (col : list K) :
  list_sum (map snd (tally K_eq_dec col)) = List.length col.
Proof.
  induction col as [|x col IH] using rev_ind; [reflexivity|].
  rewrite tally_snoc, list_sum_bump, IH, length_app. simpl. lia.
Qed.

Lemma list_sum_perm (l l' : list nat) :
  Permutation l l' -> list_sum l = list_sum l'.
Proof.
  unfold list_sum. induction 1; simpl in *; lia.
Qed.

(** The wickets per over add up to the number of wickets, which is at
    most the number of balls shown. *)
Theorem wickets_per_over_total :
  forall fb : list BallEvent,
    list_sum (map snd (wickets_per_over fb)) = List.length (wickets_df fb)
    /\ (List.length (wickets_df fb) <= total_balls fb)%nat.
Proof.
  intros fb. split.
  - unfold wickets_per_over, groupby_size.
    rewrite <- (list_sum_perm _ _
                  (Permutation_map snd (isort_perm key_le _))).
    now rewrite list_sum_tally, length_map.
  - unfold wickets_df, total_balls. apply filter_length_le.
Qed.

Lemma length_dropna_column {A : Type} (f : A -> option string)
    (l : list A) :
  List.length (dropna (map f l))
  = List.length (filter (fun a => not_blank (f a)) l).
Proof.
  induction l as [|a l IH]; simpl; [reflexivity|].
  destruct (f a); simpl; now rewrite IH.
Qed.

Lemma count_occ_dropna_column {A : Type} (f : A -> option string)
    (l : list A) (x : string) :
  count_occ string_dec (dropna (map f l)) x
  = List.length (filter (fun a => cell_is x (f a)) l).
Proof.
  induction l as [|a l IH]; simpl; [reflexivity|].
  destruct (f a) as [y|]; simpl; [|exact IH].
  destruct (string_dec y x) as [E|N].
  - apply String.eqb_eq in E. rewrite E. simpl. now rewrite IH.
  - apply String.eqb_neq in N. now rewrite N.
Qed.

Lemma In_dropna_column {A : Type} (f : A -> option string) (l : list A)
    (x : string) :
  In x (dropna (map f l)) <-> exists a, In a l /\ f a = Some x.
Proof.
  rewrite In_dropna, in_map_iff. split.
  - intros [a [E H]]. now exists a.
  - intros [a [H E]]. now exists a.
Qed.

Section ColumnCountsFacts.

Variable sort_values : list (string * nat) -> list (string * nat).

(** All that is asked of [sort_values] here is that it reorders the
    rows. *)
Hypothesis sort_values_reorders :
  forall t, Permutation t (sort_values t).

(** The counts of a text column of the match table (venues, toss winners,
    toss decisions, match winners) list each value of the column once,
    with the number of matches that have it.  A match whose cell is blank
    is counted nowhere: the counts add up to the number of matches whose
    cell is not blank, which is the number of matches shown only when the
    column has no blank cell. *)
Theorem column_counts_cover_the_table :
  forall (column : MatchRecord -> option string) (fm : list MatchRecord),
    list_sum (map snd (column_counts sort_values column fm))
      = List.length (filter (fun m => not_blank (column m)) fm)
    /\ (list_sum (map snd (column_counts sort_values column fm))
        <= total_matches fm)%nat
    /\ ((forall m, In m fm -> column m <> None) ->
        list_sum (map snd (column_counts sort_values column fm))
        = total_matches fm)
    /\ NoDup (index_tolist (column_counts sort_values column fm))
    /\ (forall x c,
           In (x, c) (column_counts sort_values column fm) <->
           (exists m, In m fm /\ column m = Some x)
           /\ c = List.length
                    (filter (fun m => cell_is x (column m)) fm)).
Proof.
  intros column fm. unfold column_counts, value_counts, index_tolist.
  set (t := tally string_dec (dropna (map column fm))).
  pose proof (sort_values_reorders t) as Hperm.
  assert (Hsum : list_sum (map snd (sort_values t))
                 = List.length (filter (fun m => not_blank (column m)) fm)).
  { rewrite <- (list_sum_perm _ _ (Permutation_map snd Hperm)).
    unfold t. now rewrite list_sum_tally, length_dropna_column. }
  split; [exact Hsum | split; [|split; [|split]]].
  - rewrite Hsum. unfold total_matches. apply filter_length_le.
  - intros Hall. rewrite Hsum. unfold total_matches. f_equal.
    rewrite (filter_ext_in _ (fun _ => true)).
    + clear. induction fm as [|m fm IH]; simpl; congruence.
    + intros m Hm. specialize (Hall m Hm). now destruct (column m).
  - apply (Permutation_NoDup (Permutation_map fst Hperm)).
    apply keys_tally_NoDup.
  - intros x c. rewrite <- count_occ_dropna_column.
    rewrite <- In_dropna_column. split.
    + intros H. apply (Permutation_in _ (Permutation_sym Hperm)) in H.
      now apply tally_In in H.
    + intros H. apply (Permutation_in _ Hperm). now apply tally_In.
Qed.

End ColumnCountsFacts.

Lemma column_counts_cover_the_table_witness :
  list_sum
    (map snd
       (winner_counts (isort count_ge)
          [match_2020; match_no_result; match_no_margin]))
  = List.length
      (filter (fun m => not_blank (winner m))
              [match_2020; match_no_result; match_no_margin]).
Proof.
  apply (column_counts_cover_the_table (isort count_ge)
           (isort_perm count_ge) winner
           [match_2020; match_no_result; match_no_margin]).
Defined.

Example example_blank_winner_is_not_counted :
  winner_counts (isort count_ge)
    [match_2020; match_no_result; match_no_margin]
  = [("A", 1%nat); ("C", 1%nat)]
  /\ total_matches [match_2020; match_no_result; match_no_margin] = 3%nat.
Proof. split; reflexivity. Qed.

(** ** Export link *)

Lemma string_ind3 (P : string -> Prop) :
  P EmptyString ->
  (forall a, P (String a EmptyString)) ->
  (forall a b, P (String a (String b EmptyString))) ->
  (forall a b c r, P r -> P (String a (String b (String c r)))) ->
  forall s, P s.
Proof.
  intros H0 H1 H2 H3 s.
  assert (H : P s /\ (forall a, P (String a s))
              /\ (forall a b, P (String a (String b s)))).
  { induction s as [|c s [IH0 [IH1 IH2]]].
    - auto.
    - split; [apply IH1 | split; [intros a; apply IH2|]].
      intros a b. now apply H3. }
  apply H.
Qed.

Lemma b64_char_symbol (n : N) : is_b64_symbol (b64_char n) = true.
Proof.
  unfold b64_char. generalize (N.to_nat n). intros m.
  do 64 (destruct m as [|m]; [reflexivity|]). reflexivity.
Qed.

Lemma b64encode_symbols (bytes : string) :
  all_b64_symbols (b64encode bytes) = true.
Proof.
  induction bytes as [|a|a b|a b c r IH] using string_ind3;
    cbn [b64encode all_b64_symbols]; rewrite ?b64_char_symbol;
    try reflexivity.
  exact IH.
Qed.

Lemma b64encode_length (bytes : string) :
  String.length (b64encode bytes)
  = (4 * ((String.length bytes + 2) / 3))%nat.
Proof.
  induction bytes as [|a|a b|a b c r IH] using string_ind3;
    try reflexivity.
  cbn [b64encode String.length]. rewrite IH.
  replace (S (S (S (String.length r))) + 2)%nat
    with (1 * 3 + (String.length r + 2))%nat by lia.
  rewrite Nat.div_add_l by lia. lia.
Qed.

Lemma count_char_app (c : ascii) (s1 s2 : string) :
  count_char c (s1 ++ s2)%string
  = (count_char c s1 + count_char c s2)%nat.
Proof.
  induction s1 as [|x s1 IH]; simpl; [reflexivity|]. rewrite IH. lia.
Qed.

Lemma count_char_b64 (c : ascii) (s : string) :
  is_b64_symbol c = false -> all_b64_symbols s = true ->
  count_char c s = 0%nat.
Proof.
  intros Hc. induction s as [|x s IH]; simpl; [reflexivity|].
  intros H. apply andb_true_iff in H. destruct H as [Hx Hs].
  rewrite (IH Hs). destruct (Ascii.eqb x c) eqn:E; [|reflexivity].
  apply Ascii.eqb_eq in E. subst x. congruence.
Qed.

(** The encoded table is made of letters, digits, [+], [/] and [=] only
    and takes four characters for every three bytes, rounded up; whatever
    the table holds, the link has exactly the four double quotes that
    delimit its two attributes. *)
Theorem export_link_is_well_formed :
  forall csv_bytes : string,
    all_b64_symbols (b64encode csv_bytes) = true
    /\ String.length (b64encode csv_bytes)
       = (4 * ((String.length csv_bytes + 2) / 3))%nat
    /\ count_char dquote (export_href csv_bytes) = 4%nat
    /\ count_char "<" (export_href csv_bytes) = 2%nat
    /\ count_char ">" (export_href csv_bytes) = 2%nat.
Proof.
  intros csv. split; [apply b64encode_symbols|].
  split; [apply b64encode_length|].
  unfold export_href.
  repeat split; rewrite !count_char_app;
    rewrite (count_char_b64 _ (b64encode csv))
      by (reflexivity || apply b64encode_symbols);
    reflexivity.
Qed.

Lemma b64_index_char (n : N) :
  (n < 64)%N -> b64_index (b64_char n) = Some n.
Proof.
  intros H. rewrite <- (N2Nat.id n).
  assert (Hm : (N.to_nat n < 64)%nat) by lia.
  generalize dependent (N.to_nat n). clear. intros m Hm.
  do 64 (destruct m as [|m]; [vm_compute; reflexivity|]). lia.
Qed.

Lemma b64_index_pad : b64_index "=" = None.
Proof. reflexivity. Qed.

Lemma sextet_bounds (n : N) :
  (n < 16777216)%N ->
  (N.shiftr n 18 < 64)%N
  /\ (N.land (N.shiftr n 12) 63 < 64)%N
  /\ (N.land (N.shiftr n 6) 63 < 64)%N
  /\ (N.land n 63 < 64)%N.
Proof.
  intros H. change 63%N with (N.ones 6).
  rewrite !N.land_ones, !N.shiftr_div_pow2.
  change (2 ^ 18)%N with 262144%N. change (2 ^ 12)%N with 4096%N.
  change (2 ^ 6)%N with 64%N.
  repeat split; zify; Z.to_euclidean_division_equations; lia.
Qed.

Lemma sextets_group (n : N) :
  (n < 16777216)%N ->
  b64_group (N.shiftr n 18) (N.land (N.shiftr n 12) 63)
            (N.land (N.shiftr n 6) 63) (N.land n 63) = n
  /\ ((n mod 64 = 0)%N ->
      b64_group (N.shiftr n 18) (N.land (N.shiftr n 12) 63)
                (N.land (N.shiftr n 6) 63) 0 = n)
  /\ ((n mod 4096 = 0)%N ->
      b64_group (N.shiftr n 18) (N.land (N.shiftr n 12) 63) 0 0 = n).
Proof.
  intros H. unfold b64_group. change 63%N with (N.ones 6).
  rewrite !N.land_ones, !N.shiftr_div_pow2.
  change (2 ^ 18)%N with 262144%N. change (2 ^ 12)%N with 4096%N.
  change (2 ^ 6)%N with 64%N.
  repeat split; intros; zify; Z.to_euclidean_division_equations; lia.
Qed.

Lemma byte_of_group (a b c : ascii) :
  let n := (N_of_ascii a * 65536 + N_of_ascii b * 256 + N_of_ascii c)%N in
  (n < 16777216)%N
  /\ byte_of (n / 65536) = a /\ byte_of (n / 256) = b /\ byte_of n = c.
Proof.
  intros n. subst n.
  pose proof (N_ascii_bounded a) as Ha.
  pose proof (N_ascii_bounded b) as Hb.
  pose proof (N_ascii_bounded c) as Hc.
  unfold byte_of. split; [lia|].
  rewrite <- (ascii_N_embedding a) at 2.
  rewrite <- (ascii_N_embedding b) at 3.
  rewrite <- (ascii_N_embedding c) at 4.
  repeat split; f_equal; zify; Z.to_euclidean_division_equations; lia.
Qed.

Lemma b64decode_b64encode (bytes : string) :
  b64decode (b64encode bytes) = Some bytes.
Proof.
  induction bytes as [|a|a b|a b c r IH] using string_ind3.
  - reflexivity.
  - cbn [b64encode b64decode].
    destruct (byte_of_group a zero zero) as [Hn [Ha _]].
    cbn [N_of_ascii zero] in Hn, Ha.
    change (N_of_ascii zero) with 0%N in *.
    rewrite N.mul_0_l, !N.add_0_r in *.
    destruct (sextet_bounds _ Hn) as [H1 [H2 _]].
    destruct (sextets_group _ Hn) as [_ [_ Hg]].
    rewrite (b64_index_char _ H1), (b64_index_char _ H2), b64_index_pad.
    cbn [Ascii.eqb Bool.eqb andb]. rewrite Hg.
    + now rewrite Ha.
    + pose proof (N_ascii_bounded a).
      zify; Z.to_euclidean_division_equations; lia.
  - cbn [b64encode b64decode].
    destruct (byte_of_group a b zero) as [Hn [Ha [Hb _]]].
    change (N_of_ascii zero) with 0%N in *.
    rewrite !N.add_0_r in *.
    destruct (sextet_bounds _ Hn) as [H1 [H2 [H3 _]]].
    destruct (sextets_group _ Hn) as [_ [Hg _]].
    rewrite (b64_index_char _ H1), (b64_index_char _ H2),
      (b64_index_char _ H3), b64_index_pad.
    cbn [Ascii.eqb Bool.eqb andb]. rewrite Hg.
    + now rewrite Ha, Hb.
    + pose proof (N_ascii_bounded a). pose proof (N_ascii_bounded b).
      zify; Z.to_euclidean_division_equations; lia.
  - cbn [b64encode b64decode].
    destruct (byte_of_group a b c) as [Hn [Ha [Hb Hc]]].
    destruct (sextet_bounds _ Hn) as [H1 [H2 [H3 H4]]].
    destruct (sextets_group _ Hn) as [Hg _].
    rewrite (b64_index_char _ H1), (b64_index_char _ H2),
      (b64_index_char _ H3), (b64_index_char _ H4).
    rewrite IH, Hg. now rewrite Ha, Hb, Hc.
Qed.

Lemma append_inv_head (pre x y : string) :
  (pre ++ x)%string = (pre ++ y)%string -> x = y.
Proof.
  induction pre as [|c pre IH]; simpl; intros H; [assumption|].
  injection H as H. now apply IH.
Qed.

Lemma length_append (x y : string) :
  String.length (x ++ y)%string
  = (String.length x + String.length y)%nat.
Proof. induction x as [|c x IH]; simpl; congruence. Qed.

Lemma append_inv_tail (suf x y : string) :
  (x ++ suf)%string = (y ++ suf)%string -> x = y.
Proof.
  revert y. induction x as [|c x IH]; intros [|d y] H; simpl in H.
  - reflexivity.
  - apply (f_equal String.length) in H. simpl in H.
    rewrite length_append in H. lia.
  - apply (f_equal String.length) in H. simpl in H.
    rewrite length_append in H. lia.
  - injection H as -> H. f_equal. now apply IH.
Qed.

(** The export loses nothing: the bytes of the table can be read back
    from their encoding, so two different tables never give the same
    encoding or the same link. *)
Theorem export_link_is_lossless :
  forall csv1 csv2 : string,
    b64decode (b64encode csv1) = Some csv1
    /\ (b64encode csv1 = b64encode csv2 -> csv1 = csv2)
    /\ (export_href csv1 = export_href csv2 -> csv1 = csv2).
Proof.
  intros csv1 csv2.
  assert (Hinj : b64encode csv1 = b64encode csv2 -> csv1 = csv2).
  { intros H. apply (f_equal b64decode) in H.
    rewrite !b64decode_b64encode in H. now injection H. }
  split; [apply b64decode_b64encode | split; [exact Hinj|]].
  unfold export_href. intros H.
  apply append_inv_head in H. injection H as H.
  apply append_inv_tail in H. now apply Hinj.
Qed.

(** ** Over numbers of a whole column *)

Lemma py_int_range (text : string) (v : Z) :
  py_int text = Some v -> int64_min <= v <= int64_max.
Proof.
  unfold py_int.
  destruct (match lstrip text with
            | String "+" r => (false, r)
            | String "-" r => (true, r)
            | _ => (false, lstrip text)
            end) as [neg body].
  destruct body as [|c body]; [discriminate|].
  destruct (digit_of c); [|discriminate].
  destruct (scan_digits 0 false (String c body)) as [[v0 rest]|];
    [|discriminate].
  destruct (all_space rest && (int64_min <=? (if neg then - v0 else v0))
            && ((if neg then - v0 else v0) <=? int64_max)) eqn:E;
    [|discriminate].
  intros H. injection H as <-.
  apply andb_true_iff in E. destruct E as [E E2].
  apply andb_true_iff in E. destruct E as [_ E1].
  apply Z.leb_le in E1. apply Z.leb_le in E2. lia.
Qed.

(** The over-number column is derived all or nothing: the assignment
    succeeds exactly when every over converts, giving one number per row,
    in order, each within 64 bits; it fails exactly when some over does
    not convert. *)
Theorem over_number_column_all_or_nothing :
  forall overs : list string,
    (forall ns,
        over_number_column overs = Some ns <->
        Forall2 (fun o n => over_number_of o = Some n) overs ns)
    /\ (over_number_column overs = None <->
        exists o, In o overs /\ over_number_of o = None)
    /\ (forall ns,
           over_number_column overs = Some ns ->
           List.length ns = List.length overs
           /\ Forall (fun n => int64_min <= n <= int64_max) ns).
Proof.
  intros overs.
  assert (H1 : forall ns,
            over_number_column overs = Some ns <->
            Forall2 (fun o n => over_number_of o = Some n) overs ns).
  { induction overs as [|o overs IH]; intros ns; simpl.
    - split.
      + intros H. injection H as <-. constructor.
      + intros H. inversion H. reflexivity.
    - destruct (over_number_of o) as [n|] eqn:Eo.
      + destruct (over_number_column overs) as [ns'|] eqn:Ec.
        * split.
          -- intros H. injection H as <-. constructor; [assumption|].
             now apply IH.
          -- intros H. inversion H as [|? n' ? ns'' Hn Hrest]; subst.
             apply IH in Hrest. congruence.
        * split; [discriminate|].
          intros H. inversion H as [|? n' ? ns'' Hn Hrest]; subst.
          apply IH in Hrest. discriminate.
      + split; [discriminate|].
        intros H. inversion H as [|? n' ? ns'' Hn Hrest]; subst.
        congruence. }
  split; [exact H1 | split].
  - clear H1. induction overs as [|o overs IH]; simpl.
    + split; [discriminate | intros [o [[] _]]].
    + destruct (over_number_of o) as [n|] eqn:Eo.
      * destruct (over_number_column overs) as [ns'|].
        -- split; [discriminate|].
           intros [o' [[<-|Hin] Hn]]; [congruence|].
           destruct IH as [_ IH]. discriminate IH. now exists o'.
        -- split; [|reflexivity]. intros _.
           destruct IH as [IH _]. destruct (IH eq_refl) as [o' [Hin Hn]].
           exists o'. auto.
      * split; [|reflexivity]. intros _. exists o. auto.
  - intros ns H. apply H1 in H. clear H1.
    induction H as [|o n overs ns Hn Hrest [IHl IHf]]; simpl.
    + split; constructor.
    + split; [congruence|]. constructor; [|assumption].
      unfold over_number_of in Hn.
      destruct (str_get0 (str_split "." o)); [|discriminate].
      now apply py_int_range in Hn.
Qed.

(** ** Splitting text *)

Lemma str_split_nonempty (sep : ascii) (s : string) : str_split sep s <> [].
Proof.
  destruct s as [|c s]; simpl; [discriminate|].
  destruct (Ascii.eqb c sep); [discriminate|].
  destruct (str_split sep s); discriminate.
Qed.

(** Splitting loses nothing: joining the pieces with the separator gives
    the text back, no piece contains the separator, and there is one more
    piece than there are separators in the text. *)
Theorem str_split_join :
  forall (sep : ascii) (s : string),
    str_join sep (str_split sep s) = s
    /\ Forall (fun w => mem_char sep w = false) (str_split sep s)
    /\ List.length (str_split sep s) = S (count_char sep s).
Proof.
  intros sep s. induction s as [|c s [IHj [IHf IHl]]].
  - simpl. repeat split. constructor; [reflexivity | constructor].
  - cbn [str_split count_char]. destruct (Ascii.eqb c sep) eqn:E.
    + apply Ascii.eqb_eq in E. subst c.
      pose proof (str_split_nonempty sep s) as Hne.
      split; [|split].
      * destruct (str_split sep s) as [|w ws] eqn:Es; [contradiction|].
        cbn [str_join]. cbn [str_join] in IHj. rewrite IHj. reflexivity.
      * constructor; [reflexivity | assumption].
      * simpl. now rewrite IHl.
    + destruct (str_split sep s) as [|w ws] eqn:Es.
      * exfalso. now apply (str_split_nonempty sep s).
      * split; [|split].
        -- destruct ws as [|w' ws]; cbn [str_join] in *.
           ++ now rewrite IHj.
           ++ simpl. now rewrite IHj.
        -- inversion IHf as [|? ? Hw Hws]; subst.
           constructor; [|assumption]. simpl. now rewrite E, Hw.
        -- simpl in *. assumption.
Qed.

(** ** The wicket test on one outcome *)








(** ** Signs and blanks in an over *)

Lemma space_is_no_digit (c : ascii) :
  is_space c = true ->
  digit_of c = None /\ Ascii.eqb c "_" = false /\ Ascii.eqb c "." = false.
Proof.
  destruct c as [[] [] [] [] [] [] [] []]; intros H;
    try discriminate H; repeat split; reflexivity.
Qed.

Lemma lstrip_app_space (pre rest : string) :
  all_space pre = true -> lstrip (pre ++ rest)%string = lstrip rest.
Proof.
  induction pre as [|c pre IH]; simpl; [reflexivity|].
  intros H. apply andb_true_iff in H. destruct H as [Hc Hp].
  rewrite Hc. now apply IH.
Qed.

Lemma mem_char_app (c : ascii) (a b : string) :
  mem_char c (a ++ b)%string = mem_char c a || mem_char c b.
Proof.
  induction a as [|x a IH]; simpl; [reflexivity|].
  now rewrite IH, orb_assoc.
Qed.

Lemma mem_point_space (s : string) :
  all_space s = true -> mem_char "." s = false.
Proof.
  induction s as [|c s IH]; simpl; [reflexivity|].
  intros H. apply andb_true_iff in H. destruct H as [Hc Hs].
  destruct (space_is_no_digit c Hc) as [_ [_ ->]]. now apply IH.
Qed.

Lemma scan_digits_decimal_app (ds : list nat) (post : string) (acc : Z) :
  Forall (fun d => (d < 10)%nat) ds ->
  all_space post = true ->
  scan_digits acc false (decimal ds ++ post)%string
  = Some (fold_left (fun acc d => 10 * acc + Z.of_nat d) ds acc, post).
Proof.
  intros HF Hpost. revert acc. induction HF as [|d ds Hd HF IH]; intros acc.
  - cbn [decimal fold_left]. change (EmptyString ++ post)%string with post.
    destruct post as [|c post]; [reflexivity|].
    simpl in Hpost. apply andb_true_iff in Hpost. destruct Hpost as [Hc _].
    destruct (space_is_no_digit c Hc) as [Hd [Hu _]].
    cbn [scan_digits]. now rewrite Hd, Hu.
  - cbn [decimal fold_left].
    change (String (digit_char d) (decimal ds) ++ post)%string
      with (String (digit_char d) (decimal ds ++ post)%string).
    cbn [scan_digits].
    destruct (digit_of_digit_char d Hd) as [-> _]. apply IH.
Qed.

Lemma py_int_signed_decimal (pre post : string) (neg : bool)
    (ds : list nat) :
  all_space pre = true -> all_space post = true ->
  ds <> [] -> Forall (fun d => (d < 10)%nat) ds ->
  decimal_value ds <= int64_max ->
  py_int (pre ++ (if neg then "-" else "") ++ decimal ds ++ post)%string
  = Some (if neg then - decimal_value ds else decimal_value ds).
Proof.
  intros Hpre Hpost Hne HF Hmax.
  destruct ds as [|d ds]; [contradiction|].
  pose proof (decimal_value_nonneg (d :: ds)) as Hpos.
  pose proof (scan_digits_decimal_app (d :: ds) post 0 HF Hpost) as Hscan.
  fold (decimal_value (d :: ds)) in Hscan.
  inversion HF as [|? ? Hd HF']; subst.
  destruct (digit_of_digit_char d Hd) as [Hdig [Hsp [Hplus Hminus]]].
  cbn [decimal] in Hscan |- *.
  change (String (digit_char d) (decimal ds) ++ post)%string
    with (String (digit_char d) (decimal ds ++ post)%string) in *.
  unfold py_int. rewrite lstrip_app_space by assumption.
  assert (Hsign :
    match String (digit_char d) (decimal ds ++ post)%string with
    | String "+" r => (false, r)
    | String "-" r => (true, r)
    | _ => (false, String (digit_char d) (decimal ds ++ post)%string)
    end = (false, String (digit_char d) (decimal ds ++ post)%string)).
  { clear - Hd. do 10 (destruct d as [|d]; [reflexivity|]). lia. }
  destruct neg.
  - change ("-" ++ String (digit_char d) (decimal ds ++ post))%string
      with (String "-" (String (digit_char d) (decimal ds ++ post)%string)).
    cbn [lstrip]. change (is_space "-") with false. cbv iota.
    rewrite Hdig, Hscan, Hpost.
    assert (H1 : (int64_min <=? - decimal_value (d :: ds)) = true)
      by (apply Z.leb_le; unfold int64_min, int64_max in *; lia).
    assert (H2 : (- decimal_value (d :: ds) <=? int64_max) = true)
      by (apply Z.leb_le; unfold int64_max in *; lia).
    now rewrite H1, H2.
  - change ("" ++ String (digit_char d) (decimal ds ++ post))%string
      with (String (digit_char d) (decimal ds ++ post)%string).
    cbn [lstrip]. rewrite Hsp, Hsign, Hdig, Hscan, Hpost.
    assert (H1 : (int64_min <=? decimal_value (d :: ds)) = true)
      by (apply Z.leb_le; unfold int64_min; lia).
    assert (H2 : (decimal_value (d :: ds) <=? int64_max) = true)
      by now apply Z.leb_le.
    now rewrite H1, H2.
Qed.

(** An over may carry blanks around its number and a minus sign before
    it: the over number is then the number, negative under a minus sign.
    The derivation does not ask for an over number of 0 or more. *)
Theorem over_number_accepts_sign_and_blanks :
  forall (pre post ball : string) (neg : bool) (ds : list nat),
    all_space pre = true -> all_space post = true ->
    ds <> [] -> Forall (fun d => (d < 10)%nat) ds ->
    decimal_value ds <= int64_max ->
    over_number_of
      ((pre ++ (if neg then "-" else "") ++ decimal ds ++ post)
       ++ String "." ball)%string
    = Some (if neg then - decimal_value ds else decimal_value ds).
Proof.
  intros pre post ball neg ds Hpre Hpost Hne HF Hmax.
  unfold over_number_of. rewrite str_split_first.
  - now apply py_int_signed_decimal.
  - rewrite !mem_char_app, (mem_point_space pre Hpre),
      (mem_point_space post Hpost), (mem_point_decimal ds HF).
    now destruct neg.
Qed.

Lemma over_number_accepts_sign_and_blanks_witness :
  over_number_of " -1.2" = Some (-1).
Proof.
  apply (over_number_accepts_sign_and_blanks " " "" "2" true [1%nat]).
  - reflexivity.
  - reflexivity.
  - discriminate.
  - repeat constructor.
  - vm_compute. discriminate.
Defined.

(** ** Nothing selected *)

Section EmptySelection.

Variable sort_values : list (string * nat) -> list (string * nat).

Hypothesis sort_values_reorders :
  forall t, Permutation t (sort_values t).

(** When the selection keeps no match, no ball is kept either, whatever
    the ball table holds, and every table drawn from the selection is
    empty: the totals are 0 and there is no row of wickets per over, of
    runs per over, of top batters or bowlers, or of counts of a column. *)
Theorem empty_selection_empties_every_table :
  forall (sf tf : list string) (s e : Z) (ms : list MatchRecord)
         (bs : list BallEvent) (column : MatchRecord -> option string),
    filtered_match_df sf tf s e ms = [] ->
    filtered_ball_df sf tf s e ms bs = []
    /\ total_matches (filtered_match_df sf tf s e ms) = 0%nat
    /\ total_balls (filtered_ball_df sf tf s e ms bs) = 0%nat
    /\ wickets_per_over (filtered_ball_df sf tf s e ms bs) = []
    /\ overs_summary (filtered_ball_df sf tf s e ms bs) = []
    /\ top_batters sort_values (filtered_ball_df sf tf s e ms bs) = []
    /\ top_bowlers sort_values (filtered_ball_df sf tf s e ms bs) = []
    /\ column_counts sort_values column (filtered_match_df sf tf s e ms)
       = []
    /\ win_by_runs (filtered_match_df sf tf s e ms) = []
    /\ win_by_wickets (filtered_match_df sf tf s e ms) = [].
Proof.
  intros sf tf s e ms bs column Hm.
  assert (Hb : filtered_ball_df sf tf s e ms bs = []).
  { unfold filtered_ball_df. rewrite Hm. apply filter_all_false.
    intros b _. reflexivity. }
  assert (Hsort : sort_values [] = []).
  { apply Permutation_nil. apply sort_values_reorders. }
  rewrite Hb, Hm.
  unfold top_batters, top_bowlers, top_players, column_counts, value_counts.
  cbn [map dropna tally fold_left]. rewrite Hsort.
  repeat split; reflexivity.
Qed.

End EmptySelection.

Lemma empty_selection_empties_every_table_witness :
  filtered_match_df ["2020"] ["Z"] 18262 18627 [match_2020; match_no_margin]
    = []
  /\ filtered_ball_df ["2020"] ["Z"] 18262 18627
       [match_2020; match_no_margin] sample_balls = [].
Proof.
  split; [reflexivity|].
  apply (empty_selection_empties_every_table (isort count_ge)
           (isort_perm count_ge) ["2020"] ["Z"] 18262 18627
           [match_2020; match_no_margin] sample_balls venue).
  reflexivity.
Defined.
